(** * AuraBookChatMVP: the ask flow of the book-chat client

    A shallow embedding of [handleSend] (src/App.tsx, in its two revisions)
    and of the pieces it is made of: the SSE frame loop, the frame parser,
    the message-list updater and the streak bookkeeping over [localStorage];
    and of the helpers of the later revision: [truncate], the daily prompts,
    the search filter, the streak read on load, the Resume button and the
    journal.

    JavaScript strings are sequences of UTF-16 code units; they are modelled
    as [list N], one number per code unit.  Platform services that are not
    code of the application (the clock, [crypto.randomUUID], [fetch], the
    [TextDecoder], [JSON.stringify], [JSON.parse], [toLowerCase]) are inputs
    of the model: the text chunks handed to the frame loop are the decoder's
    outputs.  [handleSend] is modelled at its declared parameter type
    ([overrideText?: string]); [handleSendWith] adds the call that passes a
    click event.  The calls to the analytics and
    error-reporting collaborators and to the console do not touch the state
    modelled here and are left out, and the calls of [localStorage] are taken
    to return normally. *)

From Equations Require Import Equations.
From Equations.Prop Require Import Logic.
From Stdlib Require Import ZArith NArith Ascii String Lia.
From Stdlib Require Import DecimalString DecimalPos.
From stdpp Require Import base option list gmap sets fin_sets.

(** The unfolding equations of the loops are proved without functional
    extensionality. *)
Unset Equations With Funext.

Local Open Scope N_scope.

(** ** JavaScript strings *)

Abbreviation jsstring := (list N).

(** A string literal of the source, as code units. *)
Definition js (s : string) : jsstring := N_of_ascii <$> list_ascii_of_string s.

(** The line feed, written ['\n'] in the source. *)
Definition LF : N := 10.

(** ['\n\n'], the frame delimiter. *)
Definition LFLF : jsstring := [LF; LF].

(** ECMAScript WhiteSpace and LineTerminator code points: what the regular
    expression class [\s] matches and what [String.prototype.trim] strips. *)
Definition isWhiteSpace (c : N) : bool :=
  (c =? 9) || (c =? 10) || (c =? 11) || (c =? 12) || (c =? 13) || (c =? 32)
  || (c =? 160) || (c =? 5760) || ((8192 <=? c) && (c <=? 8202))
  || (c =? 8232) || (c =? 8233) || (c =? 8239) || (c =? 8287)
  || (c =? 12288) || (c =? 65279).

(** [s.startsWith(p)] *)
Fixpoint startsWith (s p : jsstring) {struct p} : bool :=
  match p, s with
  | [], _ => true
  | a :: p', b :: s' => (a =? b) && startsWith s' p'
  | _ :: _, [] => false
  end.

(** [s.indexOf(p)]: the position of the first occurrence; [None] stands for
    the source's [-1]. *)
Fixpoint indexOf (s p : jsstring) : option nat :=
  if startsWith s p then Some 0%nat
  else match s with
       | [] => None
       | _ :: s' => S <$> indexOf s' p
       end.

(** [s.slice(from, to)] and [s.slice(from)] for indices within the string. *)
Definition slice (s : jsstring) (from to : nat) : jsstring :=
  take (to - from) (drop from s).
Definition sliceFrom (s : jsstring) (from : nat) : jsstring := drop from s.

Fixpoint trimStart (s : jsstring) : jsstring :=
  match s with
  | c :: s' => if isWhiteSpace c then trimStart s' else s
  | [] => []
  end.
Definition trimEnd (s : jsstring) : jsstring := reverse (trimStart (reverse s)).

(** [s.trim()] *)
Definition trim (s : jsstring) : jsstring := trimEnd (trimStart s).

(** [parts.join(sep)] *)
Fixpoint join (sep : jsstring) (parts : list jsstring) : jsstring :=
  match parts with
  | [] => []
  | [p] => p
  | p :: rest => p ++ sep ++ join sep rest
  end.

Lemma startsWith_app s p : startsWith (p ++ s) p = true.
Proof. induction p as [|a p IH]; simpl; [done|]. by rewrite N.eqb_refl. Qed.

Lemma startsWith_true s p : startsWith s p = true → s = p ++ drop (length p) s.
Proof.
  revert s; induction p as [|a p IH]; intros [|b s]; simpl; try done.
  intros [Hab Hs]%andb_true_iff. apply N.eqb_eq in Hab as ->.
  f_equal. by apply IH.
Qed.

Lemma startsWith_app_l s t p : startsWith s p = true → startsWith (s ++ t) p = true.
Proof.
  intros H. rewrite (startsWith_true _ _ H), <- (assoc_L (++)).
  apply startsWith_app.
Qed.

Lemma startsWith_length s p : startsWith s p = true → (length p ≤ length s)%nat.
Proof.
  intros H. rewrite (startsWith_true _ _ H), length_app. lia.
Qed.

(** Appending text cannot create a match inside a part of the string that is
    long enough to hold the pattern. *)
Lemma startsWith_app_false s t p :
  (length p ≤ length s)%nat → startsWith s p = false → startsWith (s ++ t) p = false.
Proof.
  revert s; induction p as [|a p IH]; intros [|b s]; simpl; try done; try lia.
  intros Hlen. destruct (a =? b); simpl; [|done]. apply IH. lia.
Qed.

Lemma indexOf_nil p : indexOf [] p = if startsWith [] p then Some 0%nat else None.
Proof. done. Qed.

Lemma indexOf_cons c s p :
  indexOf (c :: s) p = if startsWith (c :: s) p then Some 0%nat else S <$> indexOf s p.
Proof. done. Qed.

Lemma indexOf_bound s p i :
  indexOf s p = Some i → (i + length p ≤ length s)%nat.
Proof.
  revert i; induction s as [|c s IH]; intros i.
  - rewrite indexOf_nil. destruct (startsWith [] p) eqn:E; [|done].
    intros [= <-]. apply startsWith_length in E. simpl in *. lia.
  - rewrite indexOf_cons. destruct (startsWith (c :: s) p) eqn:E.
    + intros [= <-]. apply startsWith_length in E. simpl in *. lia.
    + destruct (indexOf s p) as [j|] eqn:Ej; simpl; [|done].
      intros [= <-]. specialize (IH j eq_refl). lia.
Qed.

(** The first occurrence found in a string is still the first one after more
    text has arrived. *)
Lemma indexOf_app s t p i :
  indexOf s p = Some i → indexOf (s ++ t) p = Some i.
Proof.
  revert i; induction s as [|c s IH]; intros i.
  - rewrite indexOf_nil. destruct (startsWith [] p) eqn:E; [|done]. intros [= <-].
    apply (startsWith_app_l _ t) in E. rewrite app_nil_l in *.
    destruct t; [rewrite indexOf_nil|rewrite indexOf_cons]; by rewrite E.
  - rewrite <- app_comm_cons, !indexOf_cons.
    destruct (startsWith (c :: s) p) eqn:E.
    + intros [= <-]. apply (startsWith_app_l _ t) in E.
      rewrite <- app_comm_cons in E. by rewrite E.
    + destruct (indexOf s p) as [j|] eqn:Ej; simpl; [|done].
      intros [= <-].
      pose proof (indexOf_bound _ _ _ Ej) as Hb.
      rewrite app_comm_cons, (startsWith_app_false (c :: s) t p); [|simpl; lia|done].
      by rewrite (IH j eq_refl).
Qed.

(** [s.split(sep)]: the pieces between successive leftmost occurrences of
    [sep]; with the empty separator, the code units one by one. *)
Equations? split (s sep : jsstring) : list jsstring by wf (length s) lt :=
  split s [] := (λ c, [c]) <$> s;
  split s (c :: sep') with inspect (indexOf s (c :: sep')) := {
    | exist _ (Some i) Hi => take i s :: split (drop (i + length (c :: sep')) s) (c :: sep');
    | exist _ None Hi => [s] }.
Proof.
  apply indexOf_bound in Hi. rewrite length_drop. simpl in *. lia.
Qed.

(** ** Chat messages *)

Inductive Role := user | book.

Module ChatMsg.
Record t := mk { id : jsstring; role : Role; content : jsstring; ts : Z }.
End ChatMsg.

#[global] Instance Role_eq_dec : EqDecision Role.
Proof. solve_decision. Defined.

#[global] Instance ChatMsg_eq_dec : EqDecision ChatMsg.t.
Proof. solve_decision. Defined.

(** The updater handed to [setMessages] for one delta:
    [m.map((msg) => msg.id === bookMsgId
                    ? { ...msg, content: (msg.content + delta) } : msg)]. *)
Definition appendDelta (bookMsgId delta : jsstring) (m : list ChatMsg.t) : list ChatMsg.t :=
  (λ msg, if decide (ChatMsg.id msg = bookMsgId)
          then ChatMsg.mk (ChatMsg.id msg) (ChatMsg.role msg)
                          (ChatMsg.content msg ++ delta) (ChatMsg.ts msg)
          else msg) <$> m.

(** ** The SSE frame parser *)

(** [line.replace(/^<field>\s?/, '')]: the field name and at most one
    white-space code unit after it are removed from the start of the line; a
    line that does not start with the field name is returned as it is. *)
Definition replaceField (line field : jsstring) : jsstring :=
  if startsWith line field then
    match drop (length field) line with
    | c :: rest => if isWhiteSpace c then rest else c :: rest
    | [] => []
    end
  else line.

(** The state of the [for (const line of lines)] loop. *)
Record FrameState := { eventType : option jsstring; dataLines : list jsstring }.

(** One iteration of the loop over the lines of a frame. *)
Definition parseLine (st : FrameState) (line : jsstring) : FrameState :=
  if startsWith line (js "event:") then
    {| eventType := Some (trim (replaceField line (js "event:")));
       dataLines := dataLines st |}
  else if startsWith line (js "data:") then
    {| eventType := eventType st;
       dataLines := dataLines st ++ [replaceField line (js "data:")] |}
  else st.

(** [chunk.split('\n')] followed by the loop, from [dataLines = []] and
    [eventType = null]. *)
Definition parseFrame (chunk : jsstring) : FrameState :=
  foldl parseLine {| eventType := None; dataLines := [] |} (split chunk [LF]).

(** The guard [eventType === null || eventType === 'chunk']. *)
Definition isChunkEvent (ev : option jsstring) : bool :=
  match ev with
  | None => true
  | Some e => bool_decide (e = js "chunk")
  end.

(** ** The frame loop

    The loop is written over the receiver of the deltas: in [handleSend] the
    receiver is the message list and a delta is delivered by
    [setMessages(appendDelta ...)]. *)
Section FrameLoop.
Context {S : Type}.
Variable forward : jsstring → S → S.

(** The body of the [while ((idx = buffer.indexOf('\n\n')) !== -1)] loop
    after the frame has been cut out of the buffer. *)
Definition onFrame (chunk : jsstring) (s : S) : S :=
  let fr := parseFrame chunk in
  if negb (bool_decide (dataLines fr = [])) && isChunkEvent (eventType fr)
  then forward (join [LF] (dataLines fr)) s
  else s.

(** The inner [while] loop: complete frames are cut from the front of the
    buffer until no delimiter is left. *)
Equations? drainFrames (buffer : jsstring) (s : S) : jsstring * S
  by wf (length buffer) lt :=
  drainFrames buffer s with inspect (indexOf buffer LFLF) := {
    | exist _ (Some idx) Hidx =>
        drainFrames (sliceFrom buffer (idx + 2)) (onFrame (slice buffer 0 idx) s);
    | exist _ None Hidx => (buffer, s) }.
Proof.
  apply indexOf_bound in Hidx. unfold sliceFrom. rewrite length_drop.
  simpl in *. lia.
Qed.
End FrameLoop.

(** ** The response stream *)

(** What one [await reader.read()] gives: the promise resolves with
    [{ value, done }] (the value already decoded to text), or it rejects. *)
Inductive ReadResult :=
  | ReadValue (value : option jsstring) (done : bool)
  | ReadRejected.

(** How a piece of asynchronous code ends: it runs to its end, it throws, or
    it waits for ever on a promise that never settles. *)
Inductive Completion := Normal | Thrown | Pending.

#[global] Instance Completion_eq_dec : EqDecision Completion.
Proof. solve_decision. Defined.

Section ReadLoop.
Context {S : Type}.
Variable forward : jsstring → S → S.

(** The [while (!done)] loop over the reads the stream answers with, in
    order.  When the answers run out before a [done] one, the next read
    never resolves. *)
Fixpoint readLoop (reads : list ReadResult) (buffer : jsstring) (s : S)
  : Completion * S :=
  match reads with
  | [] => (Pending, s)
  | ReadRejected :: _ => (Thrown, s)
  | ReadValue value readerDone :: rest =>
      let buffer := buffer ++ default [] value in
      let '(buffer, s) := drainFrames forward buffer s in
      if readerDone then (Normal, s) else readLoop rest buffer s
  end.
End ReadLoop.

(** The response of [fetch]. *)
Record Response := { ok : bool; status : Z; body : option (list ReadResult) }.

Inductive FetchResult :=
  | FetchResolved (res : Response)
  | FetchRejected
  | FetchPending.

(** The body of the [try] block of [handleSend], on the message list. *)
Definition askStream (bookMsgId : jsstring) (r : FetchResult) (m : list ChatMsg.t)
  : Completion * list ChatMsg.t :=
  match r with
  | FetchRejected => (Thrown, m)
  | FetchPending => (Pending, m)
  | FetchResolved res =>
      match ok res, body res with
      | true, Some reads => readLoop (appendDelta bookMsgId) reads [] m
      | _, _ => (Thrown, m)
      end
  end.

(** ** Numbers in [localStorage] *)

Local Open Scope Z_scope.

(** The value of a code unit as a digit in the given radix. *)
Definition digitValue (radix : Z) (c : N) : option Z :=
  let c := Z.of_N c in
  let v := if (48 <=? c) && (c <=? 57) then c - 48
           else if (97 <=? c) && (c <=? 122) then c - 87
           else if (65 <=? c) && (c <=? 90) then c - 55
           else radix in
  if v <? radix then Some v else None.

(** The longest run of digits at the start of the string, as a number;
    [None] when the string does not start with a digit. *)
Fixpoint parseDigits (radix : Z) (s : jsstring) (acc : option Z) : option Z :=
  match s with
  | [] => acc
  | c :: s' =>
      match digitValue radix c with
      | Some d => parseDigits radix s' (Some (default 0 acc * radix + d))
      | None => acc
      end
  end.

(** [parseInt(s)] with no radix argument; [None] is [NaN]: leading white
    space is skipped, then a sign, then "0x" or "0X" selects radix 16, and
    the digits that follow are read up to the first code unit that is not
    one.  Numbers are mathematical integers here; the source's are doubles,
    which agree with them up to 2^53. *)
Definition parseInt (s : jsstring) : option Z :=
  let s := trimStart s in
  let '(sign, s) := match s with
                    | c :: s' => if (c =? 45)%N then (-1, s')
                                 else if (c =? 43)%N then (1, s')
                                 else (1, s)
                    | [] => (1, s)
                    end in
  let '(radix, s) := if startsWith s (js "0x") || startsWith s (js "0X")
                     then (16, drop 2 s) else (10, s) in
  (λ n, sign * n) <$> parseDigits radix s None.

(** [String(n)] for an integer [n]. *)
Definition String_ (n : Z) : jsstring := js (NilEmpty.string_of_int (Z.to_int n)).

(** [parseInt(item || '0') || 0] *)
Definition parseCount (item : option jsstring) : Z :=
  let text := match item with
              | Some (c :: s) => c :: s
              | _ => js "0"
              end in
  default 0 (parseInt text).

(** The largest magnitude up to which every integer is a double. *)
Definition MAX_SAFE_INTEGER : Z := 2 ^ 53 - 1.

(** ** The application state *)

Module Book.
(** The optional display fields (theme, color, cover, tagline) play no part
    in the ask flow and are left out. *)
Record t := mk { id : jsstring; title : jsstring; author : jsstring }.
End Book.

(** The resume pointer [{ bookId, question, bookTitle }]. *)
Record Session := { bookId : jsstring; question : jsstring; bookTitle : jsstring }.

(** The JSON body of a [POST /ask] request. *)
Record AskRequest := { askBookId : jsstring; askQuestion : jsstring }.

(** The React state of the component, the browser's [localStorage], and the
    ask requests sent so far. *)
Record AppState := {
  books : list Book.t;
  selected : option Book.t;
  query : jsstring;
  messages : list ChatMsg.t;
  streak : Z;
  resumeSession : option Session;
  localStorage : gmap jsstring jsstring;
  asked : list AskRequest
}.

(** What one call of [handleSend] takes from the platform: the results of
    its calls of [crypto.randomUUID()] and [Date.now()], the two date strings
    [toISOString().slice(0,10)] of now and of 86400000 ms ago, and what the
    ask request is answered with. *)
Record Env := {
  userMsgId : jsstring;  userMsgTs : Z;
  bookMsgId : jsstring;  bookMsgTs : Z;
  errorMsgId : jsstring; errorMsgTs : Z;
  todayStr : jsstring;
  yesterdayStr : jsstring;
  fetchResult : FetchResult
}.

Definition setMessages (f : list ChatMsg.t → list ChatMsg.t) (st : AppState) : AppState :=
  {| books := books st; selected := selected st; query := query st;
     messages := f (messages st);
     streak := streak st; resumeSession := resumeSession st;
     localStorage := localStorage st; asked := asked st |}.

Definition setQuery (q : jsstring) (st : AppState) : AppState :=
  {| books := books st; selected := selected st; query := q;
     messages := messages st;
     streak := streak st; resumeSession := resumeSession st;
     localStorage := localStorage st; asked := asked st |}.

Definition setStreak (n : Z) (st : AppState) : AppState :=
  {| books := books st; selected := selected st; query := query st;
     messages := messages st;
     streak := n; resumeSession := resumeSession st;
     localStorage := localStorage st; asked := asked st |}.

Definition setResumeSession (f : option Session → option Session) (st : AppState) : AppState :=
  {| books := books st; selected := selected st; query := query st;
     messages := messages st;
     streak := streak st; resumeSession := f (resumeSession st);
     localStorage := localStorage st; asked := asked st |}.

(** [localStorage.setItem(key, value)] *)
Definition setItem (key value : jsstring) (st : AppState) : AppState :=
  {| books := books st; selected := selected st; query := query st;
     messages := messages st;
     streak := streak st; resumeSession := resumeSession st;
     localStorage := <[key := value]> (localStorage st); asked := asked st |}.

(** [fetch(`${API_BASE}/ask`, { method: 'POST', ... })] leaves the client. *)
Definition postAsk (r : AskRequest) (st : AppState) : AppState :=
  {| books := books st; selected := selected st; query := query st;
     messages := messages st;
     streak := streak st; resumeSession := resumeSession st;
     localStorage := localStorage st; asked := asked st ++ [r] |}.

(** [selected ?? books[0]] *)
Definition which (st : AppState) : option Book.t :=
  match selected st with
  | Some b => Some b
  | None => head (books st)
  end.

(** The fixed text of the fallback message. *)
Definition FALLBACK : jsstring :=
  js "Sorry, something went wrong while fetching the answer.".

(** The part of [handleSend] from the creation of the open book message to
    the end of the [try]/[catch], shared by the two revisions of the source:
    the thrown error is caught and answered with one more message. *)
Definition askBook (env : Env) (q : jsstring) (w : Book.t) (st : AppState)
  : Completion * AppState :=
  let initBookMsg := ChatMsg.mk (bookMsgId env) book [] (bookMsgTs env) in
  let st := setMessages (λ m, m ++ [initBookMsg]) st in
  let st := postAsk {| askBookId := Book.id w; askQuestion := q |} st in
  let '(c, m) := askStream (bookMsgId env) (fetchResult env) (messages st) in
  let st := setMessages (λ _, m) st in
  match c with
  | Thrown =>
      let errorMsg := ChatMsg.mk (errorMsgId env) book FALLBACK (errorMsgTs env) in
      (Normal, setMessages (λ m, m ++ [errorMsg]) st)
  | Normal => (Normal, st)
  | Pending => (Pending, st)
  end.

(** The label of a bubble of the transcript:
    [m.role==='user' ? 'You' : (selected?.title ?? books[0]?.title ?? 'Book')]. *)
Definition bubbleLabel (st : AppState) (m : ChatMsg.t) : jsstring :=
  match ChatMsg.role m with
  | user => js "You"
  | book =>
      match selected st with
      | Some b => Book.title b
      | None => match head (books st) with
                | Some b => Book.title b
                | None => js "Book"
                end
      end
  end.

(** The rendered transcript: one labelled bubble per message. *)
Definition transcript (st : AppState) : list (jsstring * jsstring) :=
  (λ m, (bubbleLabel st m, ChatMsg.content m)) <$> messages st.

(** *** [handleSend] of src/App.tsx *)
Module App.

Definition handleSend (env : Env) (st : AppState) : Completion * AppState :=
  let q := trim (query st) in
  if bool_decide (q = []) then (Normal, st) else
  let userMsg := ChatMsg.mk (userMsgId env) user q (userMsgTs env) in
  let st := setMessages (λ m, m ++ [userMsg]) st in
  let st := setQuery [] st in
  match which st with
  | None => (Normal, st)
  | Some w => askBook env q w st
  end.

End App.

(** *** [handleSend] of the revision with streak, resume pointer and journal *)
Module AppStreak.
Section WithJSON.

(** [JSON.stringify] of a resume pointer. *)
Variable JSON_stringify : Session → jsstring.

(** The [// Update streak] block. *)
Definition updateStreak (env : Env) (st : AppState) : AppState :=
  let last := localStorage st !! js "lastActiveDate" in
  let count := parseCount (localStorage st !! js "streakCount") in
  let count :=
    match last with
    | None | Some [] => 1
    | Some last =>
        if bool_decide (last = todayStr env) then count
        else if bool_decide (last = yesterdayStr env) then count + 1
        else 1
    end in
  let st := setItem (js "lastActiveDate") (todayStr env) st in
  let st := setItem (js "streakCount") (String_ count) st in
  setStreak count st.

(** The [// Save resume pointer] block; [which] and [which2] are both
    [selected ?? books[0]] of the render the handler was created in. *)
Definition saveResume (q : jsstring) (st : AppState) : AppState :=
  let pointer (w : Book.t) :=
    {| bookId := Book.id w; question := q; bookTitle := Book.title w |} in
  let st' := match which st with
             | Some w => setItem (js "lastSession") (JSON_stringify (pointer w)) st
             | None => st
             end in
  setResumeSession (λ prev, match which st with
                            | Some w2 => Some (pointer w2)
                            | None => prev
                            end) st'.

Definition handleSend (overrideText : option jsstring) (env : Env) (st : AppState)
  : Completion * AppState :=
  let q := trim (default (query st) overrideText) in
  if bool_decide (q = []) then (Normal, st) else
  let userMsg := ChatMsg.mk (userMsgId env) user q (userMsgTs env) in
  let st := setMessages (λ m, m ++ [userMsg]) st in
  let st := setQuery [] st in
  let st := updateStreak env st in
  let st := saveResume q st in
  match which st with
  | None => (Normal, st)
  | Some w => askBook env q w st
  end.

(** What the callers of [handleSend] pass for [overrideText].  The parameter
    is declared [overrideText?: string], but [Button] takes props of type
    [any]: the keyboard handler calls [handleSend()], the prompt and
    follow-up chips call [handleSend(p)], and the two Ask buttons are
    written [onClick={handleSend}], which passes the click event. *)
Inductive Argument :=
  | Omitted
  | Text (p : jsstring)
  | ClickEvent.

(** [handleSend] as it is called.  With the click event,
    [overrideText ?? query] is the event, an object without a [trim]
    method: the first line throws a [TypeError] before any state is set,
    and the promise of [handleSend] rejects. *)
Definition handleSendWith (overrideText : Argument) (env : Env) (st : AppState)
  : Completion * AppState :=
  match overrideText with
  | Omitted => handleSend None env st
  | Text p => handleSend (Some p) env st
  | ClickEvent => (Thrown, st)
  end.

End WithJSON.
End AppStreak.

(** ** The helpers of the component *)

(** [s.slice(from, to)] for any integers: a negative index counts from the
    end of the string, and both indices are clamped to the string. *)
Definition sliceZ (s : jsstring) (from to : Z) : jsstring :=
  let len := Z.of_nat (length s) in
  let clamp i := if i <? 0 then Z.max (len + i) 0 else Z.min i len in
  take (Z.to_nat (clamp to - clamp from)) (drop (Z.to_nat (clamp from)) s).

(** The horizontal ellipsis, one code unit. *)
Definition ELLIPSIS : N := 8230.

(** [truncate(s, n = 180)]:
    [s.length > n ? s.slice(0, n - 1) + '…' : s], for a limit that is an
    integer, as at its call sites (180 and 600); [None] is the omitted
    argument. *)
Definition truncate (s : jsstring) (n : option Z) : jsstring :=
  let n := default 180 n in
  if n <? Z.of_nat (length s) then sliceZ s 0 (n - 1) ++ [ELLIPSIS] else s.

(** The question saved with the answer at position [idx] of the transcript:
    [messages.slice(0, idx).reverse().find(x=>x.role==='user')], then
    [prevUser?.content || '(previous question)']. *)
Definition previousQuestion (messages : list ChatMsg.t) (idx : nat) : jsstring :=
  match List.find (λ x, bool_decide (ChatMsg.role x = user)) (reverse (take idx messages)) with
  | Some prevUser =>
      match ChatMsg.content prevUser with
      | [] => js "(previous question)"
      | c :: s => c :: s
      end
  | None => js "(previous question)"
  end.

(** *** The daily prompts *)

(** The [pool] of starter prompts; the first one has a typographic
    apostrophe. *)
Definition pool : list jsstring :=
  [js "Give me today" ++ [8217%N] ++ js "s 2-minute habit";
   js "Explain this chapter with an example";
   js "Turn this into a daily plan";
   js "What mistake do people make with this idea?";
   js "How do I apply this in 10 minutes?"].

(** [Array.from(key)] cuts a string into code points; [ch.charCodeAt(0)] is
    the first code unit of each: the low half of a surrogate pair is
    skipped. *)
Definition isHighSurrogate (c : N) : bool := ((55296 <=? c) && (c <=? 56319))%N.
Definition isLowSurrogate (c : N) : bool := ((56320 <=? c) && (c <=? 57343))%N.

Fixpoint charCodes (key : jsstring) : list N :=
  match key with
  | [] => []
  | c :: rest =>
      c :: match rest with
           | d :: rest' =>
               if isHighSurrogate c && isLowSurrogate d
               then charCodes rest' else charCodes rest
           | [] => []
           end
  end.

(** [Array.from(key).reduce((acc, ch) => acc + ch.charCodeAt(0), 0)] *)
Definition seedOf (key : jsstring) : N := foldl N.add 0%N (charCodes key).

(** The [while (used.has(pick) && j < pool.length)] loop; [remaining] is
    [pool.length - j]. *)
Fixpoint probe (used : gset nat) (len pick remaining : nat) : nat :=
  match remaining with
  | O => pick
  | S remaining' =>
      if decide (pick ∈ used)
      then probe used len ((pick + 1) mod len) remaining'
      else pick
  end.

(** The variables of the [for] loop that picks the prompts; an element of
    [picks] is [None] where [pool[pick]] is [undefined]. *)
Record PickState := {
  seed : N;
  used : gset nat;
  picks : list (option jsstring)
}.

(** One round of the [for] loop over the pool [prompts]: a step of the
    linear congruential generator, then the search for an index that is not
    used yet. *)
Definition pickStep (prompts : list jsstring) (st : PickState) : PickState :=
  let seed := ((seed st * 9301 + 49297) mod 233280)%N in
  let idx := N.to_nat (seed mod N.of_nat (length prompts))%N in
  let pick := probe (used st) (length prompts) idx (length prompts) in
  {| seed := seed; used := {[pick]} ∪ used st; picks := picks st ++ [prompts !! pick] |}.

(** [for (let i = 0; i < 3 && i < pool.length; i++)], from the seed of the
    date key. *)
Definition pickPrompts (prompts : list jsstring) (key : jsstring) : list (option jsstring) :=
  picks (Nat.iter (3 `min` length prompts) (pickStep prompts)
           {| seed := seedOf key; used := ∅; picks := [] |}).

(** The prompts of the day; [iso] is [today.toISOString()]. *)
Definition dailyPrompts (iso : jsstring) : list (option jsstring) :=
  pickPrompts pool (slice iso 0 10).

(** *** The search box *)

(** [s.includes(p)] *)
Definition includes (s p : jsstring) : bool := bool_decide (is_Some (indexOf s p)).

Section Search.
(** [String.prototype.toLowerCase], and the optional [theme] field of a book
    record. *)
Variable toLowerCase : jsstring → jsstring.
Variable theme : Book.t → option jsstring.

(** The test of the filter; a missing theme does not match. *)
Definition matches (s : jsstring) (b : Book.t) : bool :=
  includes (toLowerCase (Book.title b)) s
  || includes (toLowerCase (Book.author b)) s
  || match theme b with
     | Some t => includes (toLowerCase t) s
     | None => false
     end.

(** The [filtered] memo. *)
Definition filtered (search : jsstring) (books : list Book.t) : list Book.t :=
  if bool_decide (trim search = []) then books
  else List.filter (matches (toLowerCase search)) books.
End Search.

(** *** Mount and resume *)

(** The [// Streak] block of the effect that runs on load:
    [setStreak(ls ? parseInt(ls) || 0 : 0)]. *)
Definition loadStreak (st : AppState) : AppState :=
  setStreak
    match localStorage st !! js "streakCount" with
    | Some (c :: s) => default 0 (parseInt (c :: s))
    | _ => 0
    end st.

Definition setSelected (b : Book.t) (st : AppState) : AppState :=
  {| books := books st; selected := Some b; query := query st;
     messages := messages st;
     streak := streak st; resumeSession := resumeSession st;
     localStorage := localStorage st; asked := asked st |}.

(** The handler of the two "Resume" buttons, which are rendered when
    [resumeSession] is set:
    [const b = books.find(x=>x.id===resumeSession.bookId) || books[0];
     if (b) setSelected(b); setQuery(resumeSession.question)]. *)
Definition resumeClick (st : AppState) : AppState :=
  match resumeSession st with
  | None => st
  | Some session =>
      let b := match List.find (λ x, bool_decide (Book.id x = bookId session)) (books st) with
               | Some x => Some x
               | None => head (books st)
               end in
      let st := match b with
                | Some b => setSelected b st
                | None => st
                end in
      setQuery (question session) st
  end.

(** *** The journal *)

(** A saved insight [{ id, ts, bookId, q, a }]. *)
Record JournalEntry := {
  entryId : jsstring; entryTs : Z; entryBookId : jsstring;
  entryQ : jsstring; entryA : jsstring
}.

(** What [JSON.parse] makes of a stored text, as far as [saveToJournal]
    can tell: it throws, it gives a value that is not an array, or it gives
    an array of items. *)
Inductive Parsed (Item : Type) :=
  | SyntaxError
  | NotArray
  | ArrayOf (items : list Item).
Arguments SyntaxError {Item}.
Arguments NotArray {Item}.
Arguments ArrayOf {Item} items.

Section Journal.
(** The values that can be the elements of a parsed array, the value of an
    entry literal among them, and the two [JSON] functions. *)
Variable Item : Type.
Variable entryItem : JournalEntry → Item.
Variable JSON_parse : jsstring → Parsed Item.
Variable JSON_stringify : list Item → jsstring.

(** [raw ? JSON.parse(raw) : []] *)
Definition readJournal (st : AppState) : Parsed Item :=
  match localStorage st !! js "journal" with
  | Some (c :: raw) => JSON_parse (c :: raw)
  | _ => ArrayOf []
  end.

(** [saveToJournal(bookId, q, a)]; [id] and [ts] are the results of
    [crypto.randomUUID()] and [Date.now()].  A parse error, and the failing
    [list.push] on a value that is not an array, are caught. *)
Definition saveToJournal (id : jsstring) (ts : Z) (bookId q a : jsstring)
    (st : AppState) : AppState :=
  let entry := {| entryId := id; entryTs := ts; entryBookId := bookId;
                  entryQ := q; entryA := a |} in
  match readJournal st with
  | ArrayOf list => setItem (js "journal") (JSON_stringify (list ++ [entryItem entry])) st
  | SyntaxError | NotArray => st
  end.

(** The handler of the "Save" button of the bubble at position [idx], which
    only book bubbles have: the answer is saved with the previous question,
    under the id of [selected ?? books[0]]. *)
Definition saveClick (id : jsstring) (ts : Z) (idx : nat) (st : AppState) : AppState :=
  match messages st !! idx, which st with
  | Some m, Some w =>
      match ChatMsg.role m with
      | book =>
          saveToJournal id ts (Book.id w) (previousQuestion (messages st) idx)
            (ChatMsg.content m) st
      | user => st
      end
  | _, _ => st
  end.
End Journal.

(** * The vocabulary of the properties *)

(** The frames of a text, in the words of the protocol: the text is cut at
    the blank-line delimiter; every piece but the last is a complete frame,
    the last piece is the partial frame still waiting for its delimiter. *)
Definition completeFrames (text : jsstring) : list jsstring :=
  removelast (split text LFLF).
Definition partialFrame (text : jsstring) : jsstring :=
  List.last (split text LFLF) [].

(** A receiver that only writes down the deltas it is given, in order. *)
Definition logDelta (delta : jsstring) (log : list jsstring) : list jsstring :=
  log ++ [delta].

(** The deltas a frame forwards (none or one). *)
Definition frameDeltas (chunk : jsstring) : list jsstring := onFrame logDelta chunk [].

(** The deltas forwarded while the given reads are consumed. *)
Definition forwardedDeltas (reads : list ReadResult) : list jsstring :=
  (readLoop logDelta reads [] []).2.

(** The reads of a stream that delivers the given text chunks one by one and
    is then closed. *)
Definition chunkReads (chunks : list jsstring) : list ReadResult :=
  ((λ c, ReadValue (Some c) false) <$> chunks) ++ [ReadValue None true].

(** A frame in the words of the protocol.  The remainder of a field line is
    what follows the field name and one optional white-space code unit. *)
Definition fieldRemainder (field line : jsstring) : jsstring :=
  match drop (length field) line with
  | c :: rest => if isWhiteSpace c then rest else c :: rest
  | [] => []
  end.

(** The remainders of the lines of a frame that begin with "data:", in the
    order of the lines. *)
Definition dataRemainders (frame : jsstring) : list jsstring :=
  fieldRemainder (js "data:")
    <$> List.filter (λ line, startsWith line (js "data:")) (split frame [LF]).

(** The event type of a frame: the trimmed remainder of its last line that
    begins with "event:", if it has such a line. *)
Definition frameEventType (frame : jsstring) : option jsstring :=
  last ((λ line, trim (fieldRemainder (js "event:") line))
          <$> List.filter (λ line, startsWith line (js "event:")) (split frame [LF])).

(** When the guard of the frame loop lets a frame through. *)
Definition accepted (fr : FrameState) : Prop :=
  dataLines fr ≠ [] ∧ (eventType fr = None ∨ eventType fr = Some (js "chunk")).

#[global] Instance accepted_dec fr : Decision (accepted fr).
Proof. unfold accepted. apply _. Defined.

(** What [line.replace(/^data:\s?/, '')] keeps of a data line: everything
    after the field name, but for one white-space code unit directly after
    it, if there is one. *)
Definition dataValue (line value : jsstring) : Prop :=
  (line = js "data:" ++ value ∧ isWhiteSpace (default 0%N (head value)) = false)
  ∨ (∃ c, isWhiteSpace c = true ∧ line = js "data:" ++ c :: value).

(** What one delta does to one message: only the content can change, and
    only for a message with the id of the open book message. *)
Definition deltaApplied (bookMsgId delta : jsstring) (old new : ChatMsg.t) : Prop :=
  ChatMsg.id new = ChatMsg.id old
  ∧ ChatMsg.role new = ChatMsg.role old
  ∧ ChatMsg.ts new = ChatMsg.ts old
  ∧ ChatMsg.content new =
      (if decide (ChatMsg.id old = bookMsgId)
       then ChatMsg.content old ++ delta else ChatMsg.content old)
  ∧ (ChatMsg.id old ≠ bookMsgId → new = old).

(** A question that is empty or made of white space only. *)
Definition blank (q : jsstring) : Prop := Forall (λ c, isWhiteSpace c = true) q.

(** How the transport of an ask can fail, with the deltas applied before the
    failure: [fetch] rejects, the status is not a success, the response has
    no body, or a read of the body rejects. *)
Inductive TransportFailure : FetchResult → list jsstring → Prop :=
  | fetch_rejected : TransportFailure FetchRejected []
  | status_not_ok res : ok res = false → TransportFailure (FetchResolved res) []
  | body_missing res : body res = None → TransportFailure (FetchResolved res) []
  | read_rejected res reads :
      ok res = true → body res = Some reads →
      (readLoop logDelta reads [] []).1 = Thrown →
      TransportFailure (FetchResolved res) (forwardedDeltas reads).

(** The message with the id of the open book message, if the list has one. *)
Definition openMessage (bookMsgId : jsstring) (m : list ChatMsg.t) : option ChatMsg.t :=
  List.find (λ msg, bool_decide (ChatMsg.id msg = bookMsgId)) m.

(** The state in which the later revision reaches [selected ?? books[0]]. *)
Definition beforeAsk (JSON_stringify : Session → jsstring)
    (q : jsstring) (env : Env) (st : AppState) : AppState :=
  AppStreak.saveResume JSON_stringify q
    (AppStreak.updateStreak env
       (setQuery []
          (setMessages (λ m, m ++ [ChatMsg.mk (userMsgId env) user q (userMsgTs env)]) st))).

(** The turn that a failed ask leaves at the end of the message list: the
    question, the open book message with the deltas it had received, and the
    separate fallback message. *)
Definition failedTurn (env : Env) (q : jsstring) (ds : list jsstring) : list ChatMsg.t :=
  [ChatMsg.mk (userMsgId env) user q (userMsgTs env);
   ChatMsg.mk (bookMsgId env) book (concat ds) (bookMsgTs env);
   ChatMsg.mk (errorMsgId env) book FALLBACK (errorMsgTs env)].

(** The transition table of the streak, in the words of the specification:
    unchanged when the last active date is today, one more when it is
    yesterday, and 1 otherwise (no date stored, or an older one). *)
Definition streakTable (today yesterday : jsstring)
    (lastActiveDate : option jsstring) (streakCount : Z) : Z :=
  if decide (lastActiveDate = Some today) then streakCount
  else if decide (lastActiveDate = Some yesterday) then streakCount + 1
  else 1.

(** The code units of the decimal digits. *)
Definition isDigit (c : N) : Prop := (48 ≤ c ≤ 57)%N.

(** How the transport of an ask ends, and the deltas it delivers before it
    ends, whoever receives them. *)
Definition streamCompletion (r : FetchResult) : Completion :=
  (askStream [] r []).1.
Definition streamDeltas (r : FetchResult) : list jsstring :=
  match r with
  | FetchResolved res =>
      match ok res, body res with
      | true, Some reads => forwardedDeltas reads
      | _, _ => []
      end
  | _ => []
  end.

(** The request of a send: the id of the asked book and the trimmed
    question. *)
Definition askOf (w : Book.t) (q : jsstring) : AskRequest :=
  {| askBookId := Book.id w; askQuestion := trim q |}.

(** The resume pointer of a send. *)
Definition sessionOf (w : Book.t) (q : jsstring) : Session :=
  {| bookId := Book.id w; question := trim q; bookTitle := Book.title w |}.

(** The lines that the parser looks at. *)
Definition isFieldLine (line : jsstring) : bool :=
  startsWith line (js "event:") || startsWith line (js "data:").

#[global] Instance blank_dec q : Decision (blank q).
Proof. unfold blank. apply _. Defined.

(** What the rounds of the loop keep: the picked indices are different
    places of the pool, [used] is their set and [picks] their prompts. *)
Definition picked (prompts : list jsstring) (idxs : list nat) (st : PickState) : Prop :=
  NoDup idxs
  ∧ Forall (λ i, (i < length prompts)%nat) idxs
  ∧ used st = list_to_set idxs
  ∧ picks st = (λ i, prompts !! i) <$> idxs.

(** ** Concrete inputs *)

(** The claim of trimming, on one line: two spaces before the text and one
    after it. *)
Definition padded_data_line : jsstring := js "data:  x ".

(** The stream "data: Hello", "data: World", cut in the middle of a line and
    in the middle of a field name. *)
Definition hello_world_chunks : list jsstring :=
  [js "data: Hel"; js "lo" ++ LFLF ++ js "da"; js "ta: World" ++ LFLF].

(** A stream that delivers the frame "data: Hel" and then breaks. *)
Definition broken_reads : list ReadResult :=
  [ReadValue (Some (js "data: Hel" ++ LFLF)) false; ReadRejected].

Definition hello_env : Env :=
  {| userMsgId := js "u-1"; userMsgTs := 1000;
     bookMsgId := js "b-1"; bookMsgTs := 1001;
     errorMsgId := js "e-1"; errorMsgTs := 1002;
     todayStr := js "2025-03-02"; yesterdayStr := js "2025-03-01";
     fetchResult :=
       FetchResolved {| ok := true; status := 200;
                        body := Some (chunkReads hello_world_chunks) |} |}.

Definition broken_env : Env :=
  {| userMsgId := js "u-1"; userMsgTs := 1000;
     bookMsgId := js "b-1"; bookMsgTs := 1001;
     errorMsgId := js "e-1"; errorMsgTs := 1002;
     todayStr := js "2025-03-02"; yesterdayStr := js "2025-03-01";
     fetchResult := FetchResolved {| ok := true; status := 200; body := Some broken_reads |} |}.

(** The same call, with a [fetch] that rejects at once. *)
Definition offline_env : Env :=
  {| userMsgId := js "u-1"; userMsgTs := 1000;
     bookMsgId := js "b-1"; bookMsgTs := 1001;
     errorMsgId := js "e-1"; errorMsgTs := 1002;
     todayStr := js "2025-03-02"; yesterdayStr := js "2025-03-01";
     fetchResult := FetchRejected |}.

(** One book in the catalog, none selected, a question typed in. *)
Definition asking_state : AppState :=
  {| books := [Book.mk (js "b1") (js "Walden") (js "Thoreau")];
     selected := None;
     query := js "What is chapter 1 about?";
     messages := [];
     streak := 0;
     resumeSession := None;
     localStorage := ∅;
     asked := [] |}.

(** A user who was active yesterday, on day 4 of a streak. *)
Definition streak_state : AppState :=
  {| books := [Book.mk (js "b1") (js "Walden") (js "Thoreau")];
     selected := None;
     query := js "What is chapter 1 about?";
     messages := [];
     streak := 4;
     resumeSession := None;
     localStorage := <[js "streakCount" := js "4"]>
                       (<[js "lastActiveDate" := js "2025-03-01"]> ∅);
     asked := [] |}.

(** The catalog could not be loaded. *)
Definition empty_catalog_state : AppState :=
  {| books := [];
     selected := None;
     query := js "What is chapter 1 about?";
     messages := [];
     streak := 0;
     resumeSession := None;
     localStorage := ∅;
     asked := [] |}.

(** A space, a tab and a no-break space. *)
Definition blank_query : jsstring := [32; 9; 160]%N.

(** Lower case for the letters A to Z, as [toLowerCase] has it on them. *)
Definition lowerASCII (s : jsstring) : jsstring :=
  (λ c, if (65 <=? c)%N && (c <=? 90)%N then (c + 32)%N else c) <$> s.

(** A catalog of three books, none of them with a theme. *)
Definition library : list Book.t :=
  [Book.mk (js "b1") (js "Walden") (js "Thoreau");
   Book.mk (js "b2") (js "Atomic Habits") (js "James Clear");
   Book.mk (js "b3") (js "Deep Work") (js "Cal Newport")].

Definition no_theme (b : Book.t) : option jsstring := None.

(** The follow-up question of the transcript below. *)
Definition follow_up : jsstring := js "Give me examples".

(** A second send on the day of [hello_env], with a [fetch] that rejects. *)
Definition later_env : Env :=
  {| userMsgId := js "u-2"; userMsgTs := 2000;
     bookMsgId := js "b-2"; bookMsgTs := 2001;
     errorMsgId := js "e-2"; errorMsgTs := 2002;
     todayStr := js "2025-03-02"; yesterdayStr := js "2025-03-01";
     fetchResult := FetchRejected |}.

(** A send on the day after [hello_env]. *)
Definition next_day_env : Env :=
  {| userMsgId := js "u-3"; userMsgTs := 90000;
     bookMsgId := js "b-3"; bookMsgTs := 90001;
     errorMsgId := js "e-3"; errorMsgTs := 90002;
     todayStr := js "2025-03-03"; yesterdayStr := js "2025-03-02";
     fetchResult := FetchRejected |}.

(** One completed turn in the transcript and a follow-up typed in. *)
Definition talked_state : AppState :=
  {| books := library;
     selected := None;
     query := follow_up;
     messages := [ChatMsg.mk (js "u-1") user (js "What is chapter 1 about?") 1000;
                  ChatMsg.mk (js "b-1") book (js "HelloWorld") 1001];
     streak := 1;
     resumeSession := None;
     localStorage := <[js "streakCount" := js "1"]>
                       (<[js "lastActiveDate" := js "2025-03-02"]> ∅);
     asked := [] |}.

(** A frame with a comment, an id and a retry time around its two fields. *)
Definition commented_frame : list jsstring :=
  [js ": keep-alive"; js "event: chunk"; js "id: 7"; js "data: x"; js "retry: 10"].

(** A stream whose lines end with carriage return and line feed. *)
Definition crlf_chunks : list jsstring :=
  [js "data: Hello" ++ [13; 10; 13; 10]%N; js "data: World" ++ [13; 10; 13; 10]%N].

(** A serialisation of the journal for the examples.  It is not JSON: the
    entries are numbered by [encode] and the number is written in binary
    after an opening bracket; what it shares with [JSON.stringify] and
    [JSON.parse] is that the text is never empty and parses back to the
    array it was made from. *)
Definition PackedEntry : Type := jsstring * Z * jsstring * jsstring * jsstring.

Definition packEntry (e : JournalEntry) : PackedEntry :=
  (entryId e, entryTs e, entryBookId e, entryQ e, entryA e).

Fixpoint bitsOf (p : positive) : jsstring :=
  match p with
  | xH => []
  | xO p => 48%N :: bitsOf p
  | xI p => 49%N :: bitsOf p
  end.

Fixpoint ofBits (s : jsstring) : option positive :=
  match s with
  | [] => Some xH
  | c :: s =>
      p ← ofBits s;
      if (c =? 48)%N then Some (xO p)
      else if (c =? 49)%N then Some (xI p)
      else None
  end.

Definition packJournal (items : list PackedEntry) : jsstring :=
  91%N :: bitsOf (encode items).

Definition unpackJournal (raw : jsstring) : Parsed PackedEntry :=
  match raw with
  | 91%N :: bits =>
      match ofBits bits ≫= decode with
      | Some items => ArrayOf items
      | None => SyntaxError
      end
  | _ => SyntaxError
  end.

(** * Properties *)

(** ** The frame loop, equationally *)

Lemma jsstring_length_ind (P : jsstring → Prop) :
  (∀ buffer, (∀ rest, (length rest < length buffer)%nat → P rest) → P buffer) →
  ∀ buffer, P buffer.
Proof. intros H. apply (induction_ltof1 _ (@length N)). exact H. Qed.

Lemma split_step s c sep' :
  split s (c :: sep') =
  match indexOf s (c :: sep') with
  | Some i => take i s :: split (drop (i + length (c :: sep')) s) (c :: sep')
  | None => [s]
  end.
Proof.
  funelim (split s (c :: sep')); match goal with E : indexOf _ _ = _ |- _ => by rewrite E end.
Qed.

Lemma completeFrames_step text :
  completeFrames text =
  match indexOf text LFLF with
  | Some i => take i text :: completeFrames (drop (i + 2) text)
  | None => []
  end.
Proof.
  unfold completeFrames, LFLF. rewrite split_step.
  destruct (indexOf text [LF; LF]) as [i|]; [|done].
  simpl length. remember (drop (i + 2) text) as rest.
  rewrite (split_step rest). by destruct (indexOf rest [LF; LF]).
Qed.

Lemma partialFrame_step text :
  partialFrame text =
  match indexOf text LFLF with
  | Some i => partialFrame (drop (i + 2) text)
  | None => text
  end.
Proof.
  unfold partialFrame, LFLF. rewrite split_step.
  destruct (indexOf text [LF; LF]) as [i|]; [|done].
  simpl length. remember (drop (i + 2) text) as rest.
  rewrite (split_step rest). by destruct (indexOf rest [LF; LF]).
Qed.

Section FrameLoopFacts.
Context {S : Type}.
Variable forward : jsstring → S → S.

Lemma drainFrames_step buffer s :
  drainFrames forward buffer s =
  match indexOf buffer LFLF with
  | Some idx => drainFrames forward (sliceFrom buffer (idx + 2))
                  (onFrame forward (slice buffer 0 idx) s)
  | None => (buffer, s)
  end.
Proof.
  funelim (drainFrames forward buffer s);
    match goal with E : indexOf _ _ = _ |- _ => by rewrite E end.
Qed.

Lemma slice_0 buffer idx : slice buffer 0 idx = take idx buffer.
Proof. unfold slice. by rewrite drop_0, Nat.sub_0_r. Qed.

(** The loop is a left fold of the frame handler over the complete frames
    of the buffer, and it leaves the partial frame in the buffer. *)
Lemma drainFrames_frames buffer s :
  drainFrames forward buffer s =
  (partialFrame buffer,
   foldl (λ s chunk, onFrame forward chunk s) s (completeFrames buffer)).
Proof.
  revert s. induction buffer as [buffer IH] using jsstring_length_ind. intros s.
  rewrite drainFrames_step, completeFrames_step, partialFrame_step.
  destruct (indexOf buffer LFLF) as [idx|] eqn:E; [|done].
  unfold sliceFrom. rewrite IH, slice_0; [done|].
  apply indexOf_bound in E. rewrite length_drop. simpl in E. lia.
Qed.

(** After the loop no delimiter is left in the buffer. *)
Lemma partialFrame_drained buffer : indexOf (partialFrame buffer) LFLF = None.
Proof.
  induction buffer as [buffer IH] using jsstring_length_ind.
  rewrite partialFrame_step.
  destruct (indexOf buffer LFLF) as [idx|] eqn:E; [|done].
  apply IH. apply indexOf_bound in E. rewrite length_drop. simpl in E. lia.
Qed.

Lemma completeFrames_drained buffer :
  indexOf buffer LFLF = None → completeFrames buffer = [] ∧ partialFrame buffer = buffer.
Proof. intros E. by rewrite completeFrames_step, partialFrame_step, E. Qed.

(** Text that arrives later does not change the frames already complete:
    the frames of [a ++ b] are those of [a], then those of what [a] left
    in the buffer followed by [b]. *)
Lemma completeFrames_app a b :
  completeFrames (a ++ b) = completeFrames a ++ completeFrames (partialFrame a ++ b).
Proof.
  induction a as [a IH] using jsstring_length_ind.
  rewrite (completeFrames_step a), (partialFrame_step a).
  destruct (indexOf a LFLF) as [i|] eqn:E; [|done].
  pose proof (indexOf_bound _ _ _ E) as Hb. simpl in Hb.
  rewrite (completeFrames_step (a ++ b)), (indexOf_app _ _ _ _ E).
  rewrite take_app_le, drop_app_le by lia.
  rewrite IH; [done|]. rewrite length_drop. lia.
Qed.

Lemma partialFrame_app a b :
  partialFrame (a ++ b) = partialFrame (partialFrame a ++ b).
Proof.
  induction a as [a IH] using jsstring_length_ind.
  rewrite (partialFrame_step a).
  destruct (indexOf a LFLF) as [i|] eqn:E; [|done].
  pose proof (indexOf_bound _ _ _ E) as Hb. simpl in Hb.
  rewrite (partialFrame_step (a ++ b)), (indexOf_app _ _ _ _ E).
  rewrite drop_app_le by lia.
  rewrite IH; [done|]. rewrite length_drop. lia.
Qed.

Lemma drainFrames_app a b s :
  drainFrames forward (a ++ b) s =
  drainFrames forward ((drainFrames forward a s).1 ++ b) (drainFrames forward a s).2.
Proof.
  rewrite !drainFrames_frames. simpl.
  by rewrite completeFrames_app, partialFrame_app, foldl_app.
Qed.
End FrameLoopFacts.

(** ** Deltas, independently of who receives them *)

Lemma foldl_logDelta log ds : foldl (λ l d, logDelta d l) log ds = log ++ ds.
Proof.
  revert log; induction ds as [|d ds IH]; intros log; simpl.
  - by rewrite app_nil_r.
  - rewrite IH. unfold logDelta. by rewrite <- (assoc_L (++)).
Qed.

Section Receivers.
Context {S : Type}.
Variable forward : jsstring → S → S.

Lemma onFrame_deltas chunk s :
  onFrame forward chunk s = foldl (λ s d, forward d s) s (frameDeltas chunk).
Proof.
  unfold frameDeltas, onFrame.
  by destruct (negb _ && _).
Qed.

Lemma foldl_onFrame frames s :
  foldl (λ s chunk, onFrame forward chunk s) s frames =
  foldl (λ s d, forward d s) s (frames ≫= frameDeltas).
Proof.
  revert s; induction frames as [|fr frames IH]; intros s; simpl; [done|].
  by rewrite foldl_app, IH, onFrame_deltas.
Qed.

(** A stream that delivers chunks and closes is handled like its whole
    text: the receiver gets the deltas of the complete frames of the
    concatenated chunks, whatever the chunk boundaries are. *)
Lemma readLoop_chunks chunks buffer s :
  readLoop forward (chunkReads chunks) buffer s =
  (Normal, foldl (λ s d, forward d s) s
             (completeFrames (buffer ++ concat chunks) ≫= frameDeltas)).
Proof.
  revert buffer s; induction chunks as [|c chunks IH]; intros buffer s.
  - simpl. rewrite drainFrames_frames, foldl_onFrame. done.
  - change (chunkReads (c :: chunks)) with (ReadValue (Some c) false :: chunkReads chunks).
    simpl. rewrite drainFrames_frames, IH, foldl_onFrame, <- foldl_app.
    rewrite (assoc_L (++) buffer c), (completeFrames_app (buffer ++ c)).
    by rewrite bind_app.
Qed.
End Receivers.

(** The run of the read loop with any receiver is determined by its run with
    the logging receiver: same completion, and the receiver is given the
    logged deltas in order. *)
Lemma readLoop_log {S} (forward : jsstring → S → S) reads buffer s :
  readLoop forward reads buffer s =
  ((readLoop logDelta reads buffer []).1,
   foldl (λ s d, forward d s) s (readLoop logDelta reads buffer []).2).
Proof.
  assert (∃ c ds, ∀ S' (f : jsstring → S' → S') (s' : S'),
             readLoop f reads buffer s' = (c, foldl (λ s d, f d s) s' ds))
    as (c & ds & H).
  { revert buffer; induction reads as [|[value done|] reads IH]; intros buffer.
    - exists Pending, []. done.
    - destruct (IH (partialFrame (buffer ++ default [] value))) as (c & ds & H).
      destruct done.
      + exists Normal, (completeFrames (buffer ++ default [] value) ≫= frameDeltas).
        intros S' f s'. simpl. by rewrite drainFrames_frames, foldl_onFrame.
      + exists c, ((completeFrames (buffer ++ default [] value) ≫= frameDeltas) ++ ds).
        intros S' f s'. simpl.
        by rewrite drainFrames_frames, foldl_onFrame, H, foldl_app.
    - exists Thrown, []. done. }
  rewrite (H _ logDelta []), foldl_logDelta. simpl. apply H.
Qed.

(** ** The message list under deltas *)

Lemma appendDelta_nil bookMsgId m : appendDelta bookMsgId [] m = m.
Proof.
  unfold appendDelta. rewrite <- (list_fmap_id m) at 2. apply list_fmap_ext.
  intros i [i' r c t] _. simpl. case_decide; [|done]. by rewrite app_nil_r.
Qed.

Lemma appendDelta_app bookMsgId d1 d2 m :
  appendDelta bookMsgId d2 (appendDelta bookMsgId d1 m) = appendDelta bookMsgId (d1 ++ d2) m.
Proof.
  unfold appendDelta. rewrite <- list_fmap_compose. apply list_fmap_ext.
  intros i msg _. simpl.
  destruct (decide (ChatMsg.id msg = bookMsgId)) as [E|E]; simpl.
  - rewrite decide_True by done. by rewrite (assoc_L (++)).
  - by rewrite decide_False.
Qed.

(** Deltas applied one after the other act as their concatenation applied
    once. *)
Lemma appendDelta_foldl bookMsgId ds m :
  foldl (λ m d, appendDelta bookMsgId d m) m ds = appendDelta bookMsgId (concat ds) m.
Proof.
  revert m; induction ds as [|d ds IH]; intros m; simpl.
  - by rewrite appendDelta_nil.
  - by rewrite IH, appendDelta_app.
Qed.

Lemma appendDelta_absent bookMsgId delta m :
  Forall (λ msg, ChatMsg.id msg ≠ bookMsgId) m → appendDelta bookMsgId delta m = m.
Proof.
  intros H. unfold appendDelta. rewrite <- (list_fmap_id m) at 2.
  apply Forall_fmap_ext_1. eapply Forall_impl; [exact H|].
  intros msg Hne. simpl. by rewrite decide_False.
Qed.

Lemma appendDelta_snoc bookMsgId delta m msg :
  appendDelta bookMsgId delta (m ++ [msg]) =
  appendDelta bookMsgId delta m ++ appendDelta bookMsgId delta [msg].
Proof. unfold appendDelta. by rewrite fmap_app. Qed.

(** ** The frame parser, line by line *)

Arguments startsWith : simpl never.
Arguments js : simpl never.

Lemma startsWith_cons c s a p :
  startsWith (c :: s) (a :: p) = (a =? c)%N && startsWith s p.
Proof. done. Qed.

Lemma event_line_not_data line :
  startsWith line (js "event:") = true → startsWith line (js "data:") = false.
Proof.
  destruct line as [|c line]; [done|].
  change (js "event:") with (101%N :: js "vent:").
  change (js "data:") with (100%N :: js "ata:").
  rewrite !startsWith_cons.
  intros [<-%N.eqb_eq _]%andb_true_iff. reflexivity.
Qed.

Lemma parseLine_dataLines st line :
  dataLines (parseLine st line) =
  dataLines st ++ (if startsWith line (js "data:") then [replaceField line (js "data:")] else []).
Proof.
  unfold parseLine. destruct (startsWith line (js "event:")) eqn:Ev.
  - rewrite (event_line_not_data _ Ev). simpl. by rewrite app_nil_r.
  - destruct (startsWith line (js "data:")); simpl; [done|]. by rewrite app_nil_r.
Qed.

Lemma foldl_parseLine_dataLines lines st :
  dataLines (foldl parseLine st lines) =
  dataLines st ++
  ((λ line, replaceField line (js "data:")) <$>
     List.filter (λ line, startsWith line (js "data:")) lines).
Proof.
  revert st; induction lines as [|line lines IH]; intros st; simpl.
  - by rewrite app_nil_r.
  - rewrite IH, parseLine_dataLines, <- (assoc_L (++)).
    by destruct (startsWith line (js "data:")).
Qed.

Lemma replaceField_remainder line field :
  startsWith line field = true → replaceField line field = fieldRemainder field line.
Proof. intros H. unfold replaceField. by rewrite H. Qed.

Lemma parseLine_eventType st line :
  eventType (parseLine st line) =
  if startsWith line (js "event:")
  then Some (trim (fieldRemainder (js "event:") line)) else eventType st.
Proof.
  unfold parseLine. destruct (startsWith line (js "event:")) eqn:Ev; simpl.
  - by rewrite replaceField_remainder.
  - by destruct (startsWith line (js "data:")).
Qed.

Lemma foldl_parseLine_eventType lines st :
  eventType (foldl parseLine st lines) =
  match last ((λ line, trim (fieldRemainder (js "event:") line))
                <$> List.filter (λ line, startsWith line (js "event:")) lines) with
  | Some e => Some e
  | None => eventType st
  end.
Proof.
  revert st; induction lines as [|line lines IH]; intros st; simpl; [done|].
  rewrite IH, parseLine_eventType.
  destruct (startsWith line (js "event:")); [|done].
  rewrite fmap_cons, last_cons. by destruct (last _).
Qed.

(** The parser computes the frame that the protocol describes. *)
Lemma parseFrame_dataLines frame : dataLines (parseFrame frame) = dataRemainders frame.
Proof.
  unfold parseFrame, dataRemainders. rewrite foldl_parseLine_dataLines. simpl.
  apply Forall_fmap_ext_1, Forall_forall.
  intros line Hin%list_elem_of_In. apply filter_In in Hin as [_ Hl].
  by apply replaceField_remainder.
Qed.

Lemma parseFrame_eventType frame : eventType (parseFrame frame) = frameEventType frame.
Proof.
  unfold parseFrame, frameEventType. rewrite foldl_parseLine_eventType. simpl.
  by destruct (last _).
Qed.

Lemma replaceField_dataValue line :
  startsWith line (js "data:") = true → dataValue line (replaceField line (js "data:")).
Proof.
  intros H. unfold replaceField. rewrite H.
  apply startsWith_true in H. revert H.
  generalize (drop (length (js "data:")) line). intros [|c rest] ->.
  - by left.
  - destruct (isWhiteSpace c) eqn:E.
    + right. by exists c.
    + left. by split.
Qed.

(** ** Properties of the parser and of the message updater *)

Lemma guard_accepted fr :
  negb (bool_decide (dataLines fr = [])) && isChunkEvent (eventType fr) = true
  ↔ accepted fr.
Proof.
  unfold accepted. rewrite andb_true_iff, negb_true_iff, bool_decide_eq_false.
  apply and_iff_compat_l. unfold isChunkEvent.
  destruct (eventType fr) as [e|].
  - rewrite bool_decide_eq_true. split; [by right; f_equal|].
    by intros [?|[= ->]].
  - split; [by left|done].
Qed.

Lemma onFrame_accepted {S} (f : jsstring → S → S) chunk s :
  onFrame f chunk s =
  if decide (accepted (parseFrame chunk))
  then f (join [LF] (dataLines (parseFrame chunk))) s else s.
Proof.
  unfold onFrame. cbv zeta.
  pose proof (guard_accepted (parseFrame chunk)) as Hguard.
  destruct (negb _ && _).
  - rewrite decide_True; [done|]. by apply Hguard.
  - rewrite decide_False; [done|]. intros Ha. by apply Hguard in Ha.
Qed.

Lemma frameDeltas_accepted chunk :
  frameDeltas chunk =
  if decide (accepted (parseFrame chunk))
  then [join [LF] (dataLines (parseFrame chunk))] else [].
Proof. unfold frameDeltas. rewrite onFrame_accepted. by destruct (decide _). Qed.

(** C5: a parsed frame forwards a delta exactly when it has at least one
    data line and its event type is absent or is the literal "chunk"; the
    delta is then the data lines joined by line feeds, and it is what the
    open message receives.  A frame with event type "ping" and data "x"
    forwards nothing, and so does a "chunk" frame without data lines. *)
Theorem frame_forwarded_iff (chunk : jsstring) :
  ((∃ delta, frameDeltas chunk = [delta]) ↔
     dataLines (parseFrame chunk) ≠ [] ∧
     (eventType (parseFrame chunk) = None ∨
      eventType (parseFrame chunk) = Some (js "chunk")))
  ∧ frameDeltas chunk =
      (if decide (accepted (parseFrame chunk))
       then [join [LF] (dataLines (parseFrame chunk))] else [])
  ∧ (∀ bookMsgId m,
       onFrame (appendDelta bookMsgId) chunk m =
       if decide (accepted (parseFrame chunk))
       then appendDelta bookMsgId (join [LF] (dataLines (parseFrame chunk))) m else m)
  ∧ frameDeltas (js "event: ping" ++ [LF] ++ js "data: x") = []
  ∧ frameDeltas (js "event: chunk") = [].
Proof.
  split; [split|split; [|split; [|split]]].
  - intros [delta Hd]. rewrite frameDeltas_accepted in Hd.
    by destruct (decide (accepted (parseFrame chunk))).
  - intros Ha. rewrite frameDeltas_accepted, decide_True by done. by eexists.
  - apply frameDeltas_accepted.
  - intros bookMsgId m. apply onFrame_accepted.
  - by vm_compute.
  - by vm_compute.
Qed.

(** C6, as the source has it: the data lines of a frame are its lines that
    begin with "data:", in their order, each without the field name and
    without one white-space code unit directly after it; no other white
    space is removed. *)
Theorem data_lines_recorded (chunk : jsstring) :
  let lines := List.filter (λ line, startsWith line (js "data:")) (split chunk [LF]) in
  dataLines (parseFrame chunk) = (λ line, replaceField line (js "data:")) <$> lines
  ∧ Forall2 dataValue lines (dataLines (parseFrame chunk)).
Proof.
  intros lines. unfold parseFrame. rewrite foldl_parseLine_dataLines. simpl.
  fold lines. split; [done|].
  apply Forall2_fmap_r, Forall_Forall2_diag, Forall_forall.
  intros line Hin%list_elem_of_In. unfold lines in Hin.
  apply filter_In in Hin as [_ Hl]. by apply replaceField_dataValue.
Qed.

(** C6 as stated fails: the recorded value of [padded_data_line] keeps a
    leading and a trailing space, it is not the trimmed remainder. *)
Lemma data_line_not_trimmed :
  startsWith padded_data_line (js "data:") = true
  ∧ dataLines (parseFrame padded_data_line) = [js " x "]
  ∧ trim (drop 5 padded_data_line) = js "x"
  ∧ dataLines (parseFrame padded_data_line) ≠ [trim (drop 5 padded_data_line)].
Proof. by vm_compute. Qed.

(** C8: a delta for an id that no message of the list has leaves the list as
    it is; nothing is added. *)
Theorem appendDelta_unknown_id (bookMsgId delta : jsstring) (m : list ChatMsg.t) :
  bookMsgId ∉ (ChatMsg.id <$> m) →
  appendDelta bookMsgId delta m = m.
Proof.
  intros H. apply appendDelta_absent, Forall_forall. intros msg Hin E.
  apply H. rewrite <- E. apply list_elem_of_fmap. by exists msg.
Qed.

Lemma appendDelta_unknown_id_witness :
  (js "b-2" ∉ (ChatMsg.id <$> [ChatMsg.mk (js "u-1") user (js "Hi") 7%Z]))
  ∧ appendDelta (js "b-2") (js "Hello") [ChatMsg.mk (js "u-1") user (js "Hi") 7%Z]
    = [ChatMsg.mk (js "u-1") user (js "Hi") 7%Z].
Proof.
  assert (js "b-2" ∉ (ChatMsg.id <$> [ChatMsg.mk (js "u-1") user (js "Hi") 7%Z])) as H.
  { by vm_compute; intros [?|?]%list_elem_of_In. }
  split; [exact H|]. exact (appendDelta_unknown_id _ _ _ H).
Defined.

Lemma appendDelta_deltaApplied bookMsgId delta m :
  Forall2 (deltaApplied bookMsgId delta) m (appendDelta bookMsgId delta m).
Proof.
  unfold appendDelta. apply Forall2_fmap_r, Forall_Forall2_diag, Forall_forall.
  intros msg _. unfold deltaApplied. simpl.
  destruct (decide (ChatMsg.id msg = bookMsgId)) as [E|E]; simpl.
  - by repeat split.
  - by repeat split.
Qed.

(** C10: a delta application keeps the length and the order of the message
    list and, message by message, the id, the role and the timestamp; it
    changes the content of the messages with the id of the open book message
    only, by appending the delta.  The same holds for all the delta
    applications of a whole stream together. *)
Theorem delta_changes_only_open_content
    (bookMsgId delta : jsstring) (m : list ChatMsg.t) (reads : list ReadResult) :
  Forall2 (deltaApplied bookMsgId delta) m (appendDelta bookMsgId delta m)
  ∧ length (appendDelta bookMsgId delta m) = length m
  ∧ Forall2 (deltaApplied bookMsgId (concat (forwardedDeltas reads))) m
      (readLoop (appendDelta bookMsgId) reads [] m).2.
Proof.
  split; [apply appendDelta_deltaApplied|]. split.
  - unfold appendDelta. apply length_fmap.
  - rewrite readLoop_log. simpl. rewrite appendDelta_foldl.
    apply appendDelta_deltaApplied.
Qed.

(** ** Chunk boundaries *)

Lemma forwardedDeltas_chunks chunks :
  forwardedDeltas (chunkReads chunks) = completeFrames (concat chunks) ≫= frameDeltas.
Proof.
  unfold forwardedDeltas. rewrite readLoop_chunks. simpl. by rewrite foldl_logDelta.
Qed.

(** C2: cutting the text of a stream into chunks at any places gives the
    same deltas, in the same order, and the same message list as the whole
    text in one chunk; what a chunk leaves after its last delimiter stays in
    the buffer and is put in front of the next chunk. *)
Theorem chunking_invariant (chunks : list jsstring) :
  forwardedDeltas (chunkReads chunks) = forwardedDeltas (chunkReads [concat chunks])
  ∧ (∀ bookMsgId m,
       readLoop (appendDelta bookMsgId) (chunkReads chunks) [] m =
       readLoop (appendDelta bookMsgId) (chunkReads [concat chunks]) [] m)
  ∧ (∀ a b log,
       drainFrames logDelta (a ++ b) log =
       drainFrames logDelta ((drainFrames logDelta a log).1 ++ b)
         (drainFrames logDelta a log).2).
Proof.
  split; [|split].
  - rewrite !forwardedDeltas_chunks. simpl. by rewrite app_nil_r.
  - intros bookMsgId m. rewrite !readLoop_chunks. simpl. by rewrite app_nil_r.
  - intros a b log. apply drainFrames_app.
Qed.

(** C3: when every complete frame of the text has no event line or the event
    type "chunk", the deltas forwarded for the stream, put together, are the
    data-line remainders of the frames, joined by a line feed within a frame
    and with nothing between frames; the open message receives exactly this
    text, once. *)
Theorem deltas_reconstruct_data (chunks : list jsstring) :
  Forall (λ fr, frameEventType fr = None ∨ frameEventType fr = Some (js "chunk"))
         (completeFrames (concat chunks)) →
  concat (forwardedDeltas (chunkReads chunks)) =
    concat ((λ fr, join [LF] (dataRemainders fr)) <$> completeFrames (concat chunks))
  ∧ (∀ bookMsgId m,
       readLoop (appendDelta bookMsgId) (chunkReads chunks) [] m =
       (Normal,
        appendDelta bookMsgId
          (concat ((λ fr, join [LF] (dataRemainders fr))
                     <$> completeFrames (concat chunks))) m)).
Proof.
  intros Hev.
  assert (concat (forwardedDeltas (chunkReads chunks)) =
          concat ((λ fr, join [LF] (dataRemainders fr))
                    <$> completeFrames (concat chunks))) as Hcat.
  { rewrite forwardedDeltas_chunks.
    induction Hev as [|fr frames Hfr _ IH]; [done|].
    rewrite bind_cons, concat_app, IH, fmap_cons. simpl. f_equal.
    rewrite frameDeltas_accepted, <- parseFrame_dataLines.
    rewrite <- parseFrame_eventType in Hfr.
    destruct (decide (accepted (parseFrame fr))) as [|Hn].
    - simpl. by rewrite app_nil_r.
    - destruct (decide (dataLines (parseFrame fr) = [])) as [->|Hd]; [done|].
      destruct Hn. by split. }
  split; [exact Hcat|].
  intros bookMsgId m. rewrite readLoop_log. f_equal.
  - unfold forwardedDeltas. by rewrite readLoop_chunks.
  - rewrite appendDelta_foldl. f_equal. exact Hcat.
Qed.

(** ** Blank questions *)

Lemma trimStart_nil_iff s : trimStart s = [] ↔ blank s.
Proof.
  unfold blank. induction s as [|c s IH]; simpl.
  - split; [intros _; apply List.Forall_nil|done].
  - destruct (isWhiteSpace c) eqn:E.
    + rewrite IH. split; [by apply List.Forall_cons|]. by inversion 1.
    + split; [done|]. inversion 1; congruence.
Qed.

Lemma trimStart_blank_iff s : blank (trimStart s) ↔ blank s.
Proof.
  unfold blank. induction s as [|c s IH]; simpl; [done|].
  destruct (isWhiteSpace c) eqn:E; [|done].
  rewrite IH. split; [by apply List.Forall_cons|]. by inversion 1.
Qed.

(** [q.trim()] is the empty string exactly for the blank questions, so
    [if (!q) return] is taken exactly for them. *)
Lemma trim_nil_iff q : trim q = [] ↔ blank q.
Proof.
  unfold trim, trimEnd.
  rewrite <- trimStart_blank_iff.
  rewrite <- (reverse_involutive (trimStart q)) at 2.
  unfold blank at 1. rewrite Forall_reverse. fold (blank (reverse (trimStart q))).
  rewrite <- trimStart_nil_iff.
  split; [intros H|by intros ->].
  by rewrite <- (reverse_involutive (trimStart _)), H.
Qed.

Lemma trim_blank q : blank q → trim q = [].
Proof. apply trim_nil_iff. Qed.

Lemma trim_nonblank q : ¬ blank q → trim q ≠ [].
Proof. intros H E. by apply H, trim_nil_iff. Qed.

(** ** The ask flow on the message list *)

Lemma askStream_failure bookMsgId r ds m :
  TransportFailure r ds →
  askStream bookMsgId r m = (Thrown, appendDelta bookMsgId (concat ds) m).
Proof.
  intros [|res Hok|res Hbody|res reads Hok Hbody Hthrown]; simpl;
    rewrite ?appendDelta_nil; try done.
  - by rewrite Hok.
  - rewrite Hbody. by destruct (ok res).
  - rewrite Hok, Hbody, readLoop_log, Hthrown, appendDelta_foldl. done.
Qed.

Lemma askBook_failure env q w st ds :
  TransportFailure (fetchResult env) ds →
  bookMsgId env ∉ (ChatMsg.id <$> messages st) →
  (askBook env q w st).1 = Normal
  ∧ messages (askBook env q w st).2 =
      messages st ++ [ChatMsg.mk (bookMsgId env) book (concat ds) (bookMsgTs env);
                      ChatMsg.mk (errorMsgId env) book FALLBACK (errorMsgTs env)].
Proof.
  intros Hfail Hfresh. unfold askBook. simpl.
  rewrite (askStream_failure _ _ _ _ Hfail). simpl. split; [done|].
  rewrite appendDelta_snoc, appendDelta_absent.
  - unfold appendDelta. simpl. rewrite decide_True by done.
    by rewrite <- (assoc_L (++)).
  - apply Forall_forall. intros msg Hin E. apply Hfresh. rewrite <- E.
    apply list_elem_of_fmap. by exists msg.
Qed.

Lemma openMessage_fresh bookMsgId m msg rest :
  bookMsgId ∉ (ChatMsg.id <$> m) → ChatMsg.id msg = bookMsgId →
  openMessage bookMsgId (m ++ msg :: rest) = Some msg.
Proof.
  intros Hfresh Hid. unfold openMessage.
  induction m as [|x m IH]; simpl.
  - by rewrite bool_decide_eq_true_2.
  - rewrite fmap_cons, not_elem_of_cons in Hfresh. destruct Hfresh as [Hx Hm].
    rewrite bool_decide_eq_false_2 by done. by apply IH.
Qed.

(** ** [handleSend] as a whole *)

(** Two different literals are different keys. *)
Ltac js_neq := let H := fresh in intros H; vm_compute in H; discriminate H.

(** A literal with a visible character is not blank. *)
Ltac not_blank :=
  let H := fresh in intros H; apply trim_blank in H; vm_compute in H; discriminate H.

Section HandleSendFacts.
Variable JSON_stringify : Session → jsstring.

Lemma saveResume_which q st :
  which (AppStreak.saveResume JSON_stringify q st) = which st.
Proof.
  unfold AppStreak.saveResume. by destruct (which st) eqn:E; rewrite <- E.
Qed.

Lemma saveResume_messages q st :
  messages (AppStreak.saveResume JSON_stringify q st) = messages st.
Proof. unfold AppStreak.saveResume. by destruct (which st). Qed.

Lemma saveResume_asked q st :
  asked (AppStreak.saveResume JSON_stringify q st) = asked st.
Proof. unfold AppStreak.saveResume. by destruct (which st). Qed.

Lemma saveResume_books q st :
  books (AppStreak.saveResume JSON_stringify q st) = books st
  ∧ selected (AppStreak.saveResume JSON_stringify q st) = selected st.
Proof. unfold AppStreak.saveResume. by destruct (which st). Qed.

Lemma saveResume_streak q st :
  streak (AppStreak.saveResume JSON_stringify q st) = streak st.
Proof. unfold AppStreak.saveResume. by destruct (which st). Qed.

Lemma saveResume_localStorage q st key :
  key ≠ js "lastSession" →
  localStorage (AppStreak.saveResume JSON_stringify q st) !! key = localStorage st !! key.
Proof.
  intros Hkey. unfold AppStreak.saveResume. destruct (which st); simpl; [|done].
  by rewrite lookup_insert_ne.
Qed.

Lemma handleSend_streak_sent overrideText env st :
  trim (default (query st) overrideText) ≠ [] →
  AppStreak.handleSend JSON_stringify overrideText env st =
  match which st with
  | None => (Normal, beforeAsk JSON_stringify (trim (default (query st) overrideText)) env st)
  | Some w => askBook env (trim (default (query st) overrideText)) w
                (beforeAsk JSON_stringify (trim (default (query st) overrideText)) env st)
  end.
Proof.
  intros Hq. unfold AppStreak.handleSend.
  rewrite bool_decide_eq_false_2 by done. cbv zeta.
  rewrite saveResume_which. done.
Qed.

Lemma beforeAsk_messages q env st :
  messages (beforeAsk JSON_stringify q env st) =
  messages st ++ [ChatMsg.mk (userMsgId env) user q (userMsgTs env)].
Proof. unfold beforeAsk. by rewrite saveResume_messages. Qed.

Lemma beforeAsk_asked q env st : asked (beforeAsk JSON_stringify q env st) = asked st.
Proof. unfold beforeAsk. by rewrite saveResume_asked. Qed.

Lemma beforeAsk_books q env st :
  books (beforeAsk JSON_stringify q env st) = books st ∧ selected (beforeAsk JSON_stringify q env st) = selected st.
Proof. unfold beforeAsk. by rewrite !(proj1 (saveResume_books _ _)), !(proj2 (saveResume_books _ _)). Qed.
End HandleSendFacts.

Lemma handleSend_sent env st :
  trim (query st) ≠ [] →
  App.handleSend env st =
  match which st with
  | None => (Normal,
             setQuery [] (setMessages
               (λ m, m ++ [ChatMsg.mk (userMsgId env) user (trim (query st)) (userMsgTs env)]) st))
  | Some w => askBook env (trim (query st)) w
                (setQuery [] (setMessages
                   (λ m, m ++ [ChatMsg.mk (userMsgId env) user (trim (query st)) (userMsgTs env)]) st))
  end.
Proof.
  intros Hq. unfold App.handleSend. by rewrite bool_decide_eq_false_2.
Qed.

Lemma transcript_snoc st st' msg :
  books st' = books st → selected st' = selected st →
  messages st' = messages st ++ [msg] →
  transcript st' = transcript st ++ [(bubbleLabel st msg, ChatMsg.content msg)].
Proof.
  intros Hb Hs Hm. unfold transcript. rewrite Hm, fmap_app. simpl.
  unfold bubbleLabel. by rewrite Hb, Hs.
Qed.

(** C9: a question that is empty or made of white space only leaves the
    whole state as it was, in both revisions: no message, no request, no
    write to [localStorage]. *)
Theorem blank_question_noop (q : jsstring) :
  blank q →
  (∀ env st, query st = q → App.handleSend env st = (Normal, st))
  ∧ (∀ JSON_stringify overrideText env st,
       default (query st) overrideText = q →
       AppStreak.handleSend JSON_stringify overrideText env st = (Normal, st)).
Proof.
  intros Hq%trim_blank. split.
  - intros env st <-. unfold App.handleSend. by rewrite Hq.
  - intros JSON_stringify overrideText env st <-. unfold AppStreak.handleSend.
    by rewrite Hq.
Qed.

(** With an empty catalog and no selected book, a question that is not
    blank is answered by appending the user message and returning: no ask
    request is sent, no resume pointer is written, and the transcript gains
    the one bubble of the user.  In the later revision this is the call with
    no argument or with a text. *)
Theorem empty_catalog_send (q : jsstring) :
  ¬ blank q →
  (∀ env st,
     query st = q → books st = [] → selected st = None →
     App.handleSend env st =
       (Normal, setQuery [] (setMessages
                  (λ m, m ++ [ChatMsg.mk (userMsgId env) user (trim q) (userMsgTs env)]) st))
     ∧ asked (App.handleSend env st).2 = asked st
     ∧ transcript (App.handleSend env st).2 = transcript st ++ [(js "You", trim q)])
  ∧ (∀ JSON_stringify overrideText env st,
       default (query st) overrideText = q → books st = [] → selected st = None →
       (AppStreak.handleSend JSON_stringify overrideText env st).1 = Normal
       ∧ messages (AppStreak.handleSend JSON_stringify overrideText env st).2 =
           messages st ++ [ChatMsg.mk (userMsgId env) user (trim q) (userMsgTs env)]
       ∧ asked (AppStreak.handleSend JSON_stringify overrideText env st).2 = asked st
       ∧ localStorage (AppStreak.handleSend JSON_stringify overrideText env st).2
           !! js "lastSession" = localStorage st !! js "lastSession"
       ∧ transcript (AppStreak.handleSend JSON_stringify overrideText env st).2 =
           transcript st ++ [(js "You", trim q)]).
Proof.
  intros Hq%trim_nonblank. split.
  - intros env st <- Hb Hs.
    assert (which st = None) as Hw by (unfold which; by rewrite Hs, Hb).
    rewrite handleSend_sent, Hw by done. simpl. split; [done|]. split; [done|].
    by apply (transcript_snoc st _ (ChatMsg.mk (userMsgId env) user (trim (query st)) (userMsgTs env))).
  - intros JSON_stringify overrideText env st <- Hb Hs.
    assert (which st = None) as Hw by (unfold which; by rewrite Hs, Hb).
    rewrite handleSend_streak_sent, Hw by done. simpl.
    split; [done|]. split; [apply beforeAsk_messages|].
    split; [apply beforeAsk_asked|]. split.
    + unfold beforeAsk, AppStreak.saveResume.
      change (which (AppStreak.updateStreak env _)) with (which st).
      rewrite Hw. simpl. rewrite !lookup_insert_ne; [done|js_neq..].
    + destruct (beforeAsk_books JSON_stringify (trim (default (query st) overrideText)) env st)
        as [Hb' Hs'].
      apply (transcript_snoc st _
               (ChatMsg.mk (userMsgId env) user (trim (default (query st) overrideText))
                  (userMsgTs env))); [done|done|].
      apply beforeAsk_messages.
Qed.

Lemma failed_turn_messages env q w st0 st ds :
  TransportFailure (fetchResult env) ds →
  messages st = messages st0 ++ [ChatMsg.mk (userMsgId env) user q (userMsgTs env)] →
  bookMsgId env ≠ userMsgId env →
  bookMsgId env ∉ (ChatMsg.id <$> messages st0) →
  (askBook env q w st).1 = Normal
  ∧ messages (askBook env q w st).2 = messages st0 ++ failedTurn env q ds
  ∧ openMessage (bookMsgId env) (messages (askBook env q w st).2) =
      Some (ChatMsg.mk (bookMsgId env) book (concat ds) (bookMsgTs env)).
Proof.
  intros Hfail Hm Hne Hfresh.
  assert (bookMsgId env ∉ (ChatMsg.id <$> messages st)) as Hfresh'.
  { rewrite Hm, fmap_app, not_elem_of_app. split; [done|].
    simpl. rewrite not_elem_of_cons. split; [done|]. apply not_elem_of_nil. }
  destruct (askBook_failure env q w st ds Hfail Hfresh') as [Hc Hmsgs].
  split; [done|]. split.
  - rewrite Hmsgs, Hm, <- (assoc_L (++)). done.
  - rewrite Hmsgs. by apply openMessage_fresh.
Qed.

(** C1, as the source has it: when the transport of the ask fails after some
    deltas (or none), [handleSend] still completes; the open book message
    keeps exactly the deltas it had received, and the fallback text is the
    content of one more book message appended after it. *)
Theorem transport_failure_appends_fallback
    (q : jsstring) (r : FetchResult) (ds : list jsstring) :
  ¬ blank q →
  TransportFailure r ds →
  (∀ env st w,
     query st = q → fetchResult env = r → which st = Some w →
     bookMsgId env ≠ userMsgId env →
     bookMsgId env ∉ (ChatMsg.id <$> messages st) →
     (App.handleSend env st).1 = Normal
     ∧ messages (App.handleSend env st).2 = messages st ++ failedTurn env (trim q) ds
     ∧ openMessage (bookMsgId env) (messages (App.handleSend env st).2) =
         Some (ChatMsg.mk (bookMsgId env) book (concat ds) (bookMsgTs env)))
  ∧ (∀ JSON_stringify overrideText env st w,
       default (query st) overrideText = q → fetchResult env = r → which st = Some w →
       bookMsgId env ≠ userMsgId env →
       bookMsgId env ∉ (ChatMsg.id <$> messages st) →
       (AppStreak.handleSend JSON_stringify overrideText env st).1 = Normal
       ∧ messages (AppStreak.handleSend JSON_stringify overrideText env st).2 =
           messages st ++ failedTurn env (trim q) ds
       ∧ openMessage (bookMsgId env)
           (messages (AppStreak.handleSend JSON_stringify overrideText env st).2) =
           Some (ChatMsg.mk (bookMsgId env) book (concat ds) (bookMsgTs env))).
Proof.
  intros Hq%trim_nonblank Hfail. split.
  - intros env st w <- <- Hw Hne Hfresh.
    rewrite handleSend_sent, Hw by done.
    by apply (failed_turn_messages env _ w st).
  - intros JSON_stringify overrideText env st w <- <- Hw Hne Hfresh.
    rewrite handleSend_streak_sent, Hw by done.
    apply (failed_turn_messages env _ w st); [done| |done|done].
    apply beforeAsk_messages.
Qed.

(** C1 as stated fails: after a failure in the middle of the stream the open
    book message holds the partial text, and after a failure before any
    delta it is empty; in neither case is its content the fallback text. *)
Lemma open_message_keeps_partial_content :
  TransportFailure (fetchResult broken_env) (forwardedDeltas broken_reads)
  ∧ (App.handleSend broken_env asking_state).1 = Normal
  ∧ ChatMsg.content <$>
      openMessage (bookMsgId broken_env)
        (messages (App.handleSend broken_env asking_state).2) = Some (js "Hel")
  ∧ TransportFailure (fetchResult offline_env) []
  ∧ (App.handleSend offline_env asking_state).1 = Normal
  ∧ ChatMsg.content <$>
      openMessage (bookMsgId offline_env)
        (messages (App.handleSend offline_env asking_state).2) = Some []
  ∧ js "Hel" ≠ FALLBACK ∧ [] ≠ FALLBACK.
Proof.
  split; [by apply read_rejected|].
  split; [by vm_compute|]. split; [by vm_compute|].
  split; [apply fetch_rejected|].
  split; [by vm_compute|]. split; [by vm_compute|].
  split; js_neq.
Qed.

Lemma transport_failure_appends_fallback_witness :
  messages (App.handleSend broken_env asking_state).2 =
    [ChatMsg.mk (js "u-1") user (js "What is chapter 1 about?") 1000;
     ChatMsg.mk (js "b-1") book (js "Hel") 1001;
     ChatMsg.mk (js "e-1") book FALLBACK 1002].
Proof.
  assert (¬ blank (js "What is chapter 1 about?")) as Hq by not_blank.
  assert (TransportFailure (fetchResult broken_env) (forwardedDeltas broken_reads))
    as Hfail by (by apply read_rejected).
  assert (bookMsgId broken_env ≠ userMsgId broken_env) as Hne by js_neq.
  assert (bookMsgId broken_env ∉ (ChatMsg.id <$> messages asking_state)) as Hfresh
    by apply not_elem_of_nil.
  exact (proj1 (proj2 (proj1
           (transport_failure_appends_fallback _ _ _ Hq Hfail)
           broken_env asking_state (Book.mk (js "b1") (js "Walden") (js "Thoreau"))
           eq_refl eq_refl eq_refl Hne Hfresh))).
Defined.

(** ** Reading back a stored count *)

Lemma js_String c s : js (String c s) = N_of_ascii c :: js s.
Proof. done. Qed.

(** The digits of a decimal numeral are read from left to right. *)
Lemma parseDigits_decimal d acc :
  parseDigits 10 (js (NilEmpty.string_of_uint d)) (Some (Z.of_N (DecimalPos.Unsigned.of_lu acc))) =
  Some (Z.of_N (DecimalPos.Unsigned.of_lu (Decimal.revapp d acc))).
Proof.
  revert acc; induction d as [|d IH|d IH|d IH|d IH|d IH|d IH|d IH|d IH|d IH|d IH];
    intros acc; [done |..];
    cbn [NilEmpty.string_of_uint Decimal.revapp]; rewrite js_String;
    cbn [parseDigits]; rewrite <- IH;
    change (digitValue 10 (N_of_ascii _)) with (Some 0) ||
    change (digitValue 10 (N_of_ascii _)) with (Some 1) ||
    change (digitValue 10 (N_of_ascii _)) with (Some 2) ||
    change (digitValue 10 (N_of_ascii _)) with (Some 3) ||
    change (digitValue 10 (N_of_ascii _)) with (Some 4) ||
    change (digitValue 10 (N_of_ascii _)) with (Some 5) ||
    change (digitValue 10 (N_of_ascii _)) with (Some 6) ||
    change (digitValue 10 (N_of_ascii _)) with (Some 7) ||
    change (digitValue 10 (N_of_ascii _)) with (Some 8) ||
    change (digitValue 10 (N_of_ascii _)) with (Some 9);
    cbn [default from_option id]; do 2 f_equal;
    match goal with |- _ = Z.of_N (DecimalPos.Unsigned.of_lu ?x) =>
      rewrite (DecimalPos.Unsigned.of_lu_eqn x) end;
    cbn [DecimalPos.Unsigned.hd DecimalPos.Unsigned.tl]; lia.
Qed.

Lemma decimal_digits d : Forall isDigit (js (NilEmpty.string_of_uint d)).
Proof.
  induction d; cbn [NilEmpty.string_of_uint]; [apply List.Forall_nil|..];
    rewrite js_String; (apply List.Forall_cons; [by vm_compute|done]).
Qed.

Lemma isDigit_not_space c : isDigit c → isWhiteSpace c = false.
Proof.
  intros [H1 H2]. unfold isWhiteSpace.
  repeat match goal with
         | |- context [(c =? ?k)%N] => rewrite (proj2 (N.eqb_neq c k)) by lia
         end.
  rewrite (proj2 (N.leb_gt 8192 c)) by lia. done.
Qed.

(** A string of decimal digits is read as a decimal number. *)
Lemma parseInt_digits s :
  Forall isDigit s → parseInt s = parseDigits 10 s None.
Proof.
  intros Hs. unfold parseInt.
  destruct Hs as [|c s Hc Hs]; [done|].
  cbn [trimStart]. rewrite (isDigit_not_space _ Hc).
  rewrite (proj2 (N.eqb_neq c 45)), (proj2 (N.eqb_neq c 43)) by (destruct Hc; lia).
  assert (startsWith (c :: s) (js "0x") = false ∧ startsWith (c :: s) (js "0X") = false)
    as [-> ->].
  { change (js "0x") with [48; 120]%N. change (js "0X") with [48; 88]%N.
    destruct Hs as [|c2 s Hc2 _]; rewrite !startsWith_cons.
    - split; by rewrite andb_false_r.
    - rewrite (proj2 (N.eqb_neq 120 c2)), (proj2 (N.eqb_neq 88 c2)) by (destruct Hc2; lia).
      split; by rewrite andb_false_r. }
  cbn [orb]. by destruct (parseDigits 10 (c :: s) None) as [[| |]|].
Qed.

Lemma parseInt_minus s :
  Forall isDigit s → parseInt (45%N :: s) = Z.opp <$> parseDigits 10 s None.
Proof.
  intros Hs. unfold parseInt. cbn [trimStart].
  change (isWhiteSpace 45) with false. cbv beta iota zeta.
  rewrite N.eqb_refl. cbv beta iota.
  assert (startsWith s (js "0x") = false ∧ startsWith s (js "0X") = false) as [-> ->].
  { change (js "0x") with [48; 120]%N. change (js "0X") with [48; 88]%N.
    destruct Hs as [|c s Hc Hs]; [done|].
    destruct Hs as [|c2 s Hc2 _]; rewrite !startsWith_cons.
    - split; by rewrite andb_false_r.
    - rewrite (proj2 (N.eqb_neq 120 c2)), (proj2 (N.eqb_neq 88 c2)) by (destruct Hc2; lia).
      split; by rewrite andb_false_r. }
  cbn [orb]. by destruct (parseDigits 10 s None) as [[| |]|].
Qed.

Lemma parseDigits_numeral p :
  parseDigits 10 (js (NilEmpty.string_of_uint (Pos.to_uint p))) None = Some (Z.pos p).
Proof.
  pose proof (DecimalPos.Unsigned.to_uint_nonnil p) as Hnil.
  pose proof (DecimalPos.Unsigned.of_to p) as Hval.
  rewrite DecimalPos.Unsigned.of_uint_alt in Hval. unfold Decimal.rev in Hval.
  pose proof (parseDigits_decimal (Pos.to_uint p) Decimal.Nil) as Hparse.
  rewrite Hval in Hparse. change (Z.of_N (N.pos p)) with (Z.pos p) in Hparse.
  rewrite <- Hparse. by destruct (Pos.to_uint p).
Qed.

(** [parseInt(String(n))] is [n], so a stored count is read back as the
    number that was stored. *)
Lemma parseCount_String n : parseCount (Some (String_ n)) = n.
Proof.
  assert (parseInt (String_ n) = Some n ∧ String_ n ≠ []) as [Hp Hne].
  { unfold String_. destruct n as [|p|p]; [by vm_compute| |];
      cbn [Z.to_int NilEmpty.string_of_int].
    - rewrite parseInt_digits, parseDigits_numeral by apply decimal_digits.
      split; [done|]. pose proof (DecimalPos.Unsigned.to_uint_nonnil p).
      by destruct (Pos.to_uint p).
    - rewrite js_String. change (N_of_ascii "-") with 45%N.
      rewrite parseInt_minus, parseDigits_numeral by apply decimal_digits. done. }
  unfold parseCount. destruct (String_ n); [done|]. by rewrite Hp.
Qed.

(** ** The streak *)

Lemma askBook_keeps_storage env q w st :
  localStorage (askBook env q w st).2 = localStorage st
  ∧ streak (askBook env q w st).2 = streak st.
Proof.
  unfold askBook. cbv zeta.
  destruct (askStream _ _ _) as [[] m]; done.
Qed.

Lemma updateStreak_table env st :
  todayStr env ≠ [] → yesterdayStr env ≠ [] →
  AppStreak.updateStreak env st =
  setStreak
    (streakTable (todayStr env) (yesterdayStr env)
       (localStorage st !! js "lastActiveDate")
       (parseCount (localStorage st !! js "streakCount")))
    (setItem (js "streakCount")
       (String_ (streakTable (todayStr env) (yesterdayStr env)
                   (localStorage st !! js "lastActiveDate")
                   (parseCount (localStorage st !! js "streakCount"))))
       (setItem (js "lastActiveDate") (todayStr env) st)).
Proof.
  intros Ht Hy. unfold AppStreak.updateStreak. cbv zeta.
  assert (∀ count,
    match localStorage st !! js "lastActiveDate" with
    | None | Some [] => 1
    | Some last =>
        if bool_decide (last = todayStr env) then count
        else if bool_decide (last = yesterdayStr env) then count + 1 else 1
    end = streakTable (todayStr env) (yesterdayStr env)
            (localStorage st !! js "lastActiveDate") count) as ->; [|done].
  intros count. unfold streakTable.
  destruct (localStorage st !! js "lastActiveDate") as [[|c last]|].
  - rewrite !decide_False; [done| |]; intros [= E]; congruence.
  - destruct (decide (c :: last = todayStr env)) as [E|E].
    + rewrite bool_decide_eq_true_2, decide_True by (by f_equal). done.
    + rewrite bool_decide_eq_false_2, decide_False by (by intros [= ?]).
      destruct (decide (c :: last = yesterdayStr env)) as [E'|E'].
      * rewrite bool_decide_eq_true_2, decide_True by (by f_equal). done.
      * rewrite bool_decide_eq_false_2, decide_False by (by intros [= ?]). done.
  - by rewrite !decide_False.
Qed.

(** C4: a send with a question that is not blank moves the streak by the
    transition table: from the stored last active date and the stored count
    (read with [parseInt], within the integers that doubles hold exactly),
    the new count is the old one if the date is today's, one more if it is
    yesterday's, and 1 otherwise; the new count is stored under
    "streakCount" and shown as the streak, and today's date is stored under
    "lastActiveDate". *)
Theorem streak_transition
    (JSON_stringify : Session → jsstring) (overrideText : option jsstring)
    (env : Env) (st : AppState) :
  ¬ blank (default (query st) overrideText) →
  todayStr env ≠ [] →
  yesterdayStr env ≠ [] →
  Z.abs (parseCount (localStorage st !! js "streakCount")) ≤ MAX_SAFE_INTEGER →
  let st' := (AppStreak.handleSend JSON_stringify overrideText env st).2 in
  let count' := streakTable (todayStr env) (yesterdayStr env)
                  (localStorage st !! js "lastActiveDate")
                  (parseCount (localStorage st !! js "streakCount")) in
  localStorage st' !! js "lastActiveDate" = Some (todayStr env)
  ∧ localStorage st' !! js "streakCount" = Some (String_ count')
  ∧ parseCount (localStorage st' !! js "streakCount") = count'
  ∧ streak st' = count'.
Proof.
  intros Hq%trim_nonblank Ht Hy _ st' count'.
  assert (localStorage st' = localStorage (beforeAsk JSON_stringify
            (trim (default (query st) overrideText)) env st)
          ∧ streak st' = streak (beforeAsk JSON_stringify
            (trim (default (query st) overrideText)) env st)) as [Hls Hs].
  { unfold st'. rewrite handleSend_streak_sent by done.
    destruct (which st); [apply askBook_keeps_storage|done]. }
  rewrite Hls, Hs. unfold beforeAsk.
  rewrite !saveResume_localStorage, saveResume_streak by js_neq.
  rewrite updateStreak_table by done. simpl.
  fold count'. rewrite lookup_insert_eq, parseCount_String.
  split; [|done].
  rewrite lookup_insert_ne by js_neq. by rewrite lookup_insert_eq.
Qed.

(** ** Runs on concrete inputs *)

Example hello_world_answer :
  (App.handleSend hello_env asking_state).1 = Normal
  ∧ messages (App.handleSend hello_env asking_state).2 =
      [ChatMsg.mk (js "u-1") user (js "What is chapter 1 about?") 1000;
       ChatMsg.mk (js "b-1") book (js "HelloWorld") 1001]
  ∧ asked (App.handleSend hello_env asking_state).2 =
      [{| askBookId := js "b1"; askQuestion := js "What is chapter 1 about?" |}].
Proof. by vm_compute. Qed.

(** A chunk boundary between the two line feeds of a delimiter, and a last
    frame that never gets its delimiter: the first is invisible, the second
    forwards nothing. *)
Example delimiter_cut_in_two :
  forwardedDeltas (chunkReads [js "data: a" ++ [LF]; [LF] ++ js "data: b" ++ LFLF])
    = [js "a"; js "b"]
  ∧ forwardedDeltas (chunkReads [js "data: a" ++ LFLF ++ js "data: b"]) = [js "a"].
Proof. by vm_compute. Qed.

Example parseInt_examples :
  parseInt (js "42") = Some 42 ∧ parseInt (js " -7days") = Some (-7)
  ∧ parseInt (js "0x1f") = Some 31 ∧ parseInt (js "abc") = None
  ∧ parseCount None = 0 ∧ parseCount (Some []) = 0
  ∧ String_ 12 = js "12" ∧ String_ 0 = js "0" ∧ String_ (-3) = js "-3".
Proof. by vm_compute. Qed.

Lemma deltas_reconstruct_data_witness :
  concat (forwardedDeltas (chunkReads hello_world_chunks)) = js "HelloWorld".
Proof.
  assert (Forall (λ fr, frameEventType fr = None ∨
                        frameEventType fr = Some (js "chunk"))
            (completeFrames (concat hello_world_chunks))) as Hev.
  { replace (completeFrames (concat hello_world_chunks))
      with [js "data: Hello"; js "data: World"] by (by vm_compute).
    repeat (apply List.Forall_cons; [by left; vm_compute|]). apply List.Forall_nil. }
  rewrite (proj1 (deltas_reconstruct_data hello_world_chunks Hev)).
  by vm_compute.
Defined.

Lemma streak_transition_witness :
  localStorage (AppStreak.handleSend (λ _, []) None hello_env streak_state).2
    !! js "streakCount" = Some (js "5")
  ∧ streak (AppStreak.handleSend (λ _, []) None hello_env streak_state).2 = 5.
Proof.
  assert (¬ blank (default (query streak_state) None)) as Hq by not_blank.
  assert (todayStr hello_env ≠ []) as Ht by js_neq.
  assert (yesterdayStr hello_env ≠ []) as Hy by js_neq.
  assert (Z.abs (parseCount (localStorage streak_state !! js "streakCount"))
          ≤ MAX_SAFE_INTEGER) as Hsafe by (by vm_compute).
  pose proof (streak_transition (λ _, []) None hello_env streak_state Hq Ht Hy Hsafe)
    as (_ & Hstored & _ & Hshown).
  split; [exact Hstored|exact Hshown].
Defined.

Lemma empty_catalog_send_witness :
  App.handleSend hello_env empty_catalog_state =
    (Normal,
     setQuery [] (setMessages
       (λ m, m ++ [ChatMsg.mk (js "u-1") user (js "What is chapter 1 about?") 1000])
       empty_catalog_state))
  ∧ asked (AppStreak.handleSend (λ _, []) None hello_env empty_catalog_state).2 = [].
Proof.
  assert (¬ blank (js "What is chapter 1 about?")) as Hq by not_blank.
  destruct (empty_catalog_send _ Hq) as [Happ Hstreak].
  split.
  - exact (proj1 (Happ hello_env empty_catalog_state eq_refl eq_refl eq_refl)).
  - exact (proj1 (proj2 (proj2
             (Hstreak (λ _, []) None hello_env empty_catalog_state
                eq_refl eq_refl eq_refl)))).
Defined.

(** C7: in the later revision a question sent with an Ask button does not
    do what the claim says.  With an empty catalog, no selected book and a
    question typed in, the call that the button makes throws and leaves the
    state as it was: no user message is appended.  In the same state the
    call that the keyboard makes completes, appends the user message and
    sends no request, and so does [handleSend] of src/App.tsx, which takes
    no parameter. *)
Theorem ask_button_send_throws (JSON_stringify : Session → jsstring) :
  AppStreak.handleSendWith JSON_stringify AppStreak.ClickEvent hello_env empty_catalog_state
    = (Thrown, empty_catalog_state)
  ∧ messages (AppStreak.handleSendWith JSON_stringify AppStreak.ClickEvent
                hello_env empty_catalog_state).2 = []
  ∧ (AppStreak.handleSendWith JSON_stringify AppStreak.Omitted
       hello_env empty_catalog_state).1 = Normal
  ∧ messages (AppStreak.handleSendWith JSON_stringify AppStreak.Omitted
                hello_env empty_catalog_state).2
      = [ChatMsg.mk (js "u-1") user (js "What is chapter 1 about?") 1000]
  ∧ asked (AppStreak.handleSendWith JSON_stringify AppStreak.Omitted
             hello_env empty_catalog_state).2 = []
  ∧ App.handleSend hello_env empty_catalog_state
      = (Normal,
         setQuery [] (setMessages
           (λ m, m ++ [ChatMsg.mk (js "u-1") user (js "What is chapter 1 about?") 1000])
           empty_catalog_state)).
Proof.
  assert (trim (js "What is chapter 1 about?") = js "What is chapter 1 about?") as Htrim
    by (by vm_compute).
  assert (trim (default (query empty_catalog_state) None) ≠ []) as Hq
    by (simpl; rewrite Htrim; js_neq).
  split; [done|]. split; [done|].
  unfold AppStreak.handleSendWith.
  rewrite (handleSend_streak_sent JSON_stringify None hello_env empty_catalog_state Hq).
  change (which empty_catalog_state) with (@None Book.t). cbn [fst snd].
  rewrite beforeAsk_messages, beforeAsk_asked.
  split; [done|]. split; [simpl; by rewrite Htrim|]. split; [done|].
  rewrite handleSend_sent by exact Hq.
  change (which empty_catalog_state) with (@None Book.t). cbv iota.
  simpl query. by rewrite Htrim.
Qed.

Lemma blank_question_noop_witness :
  blank blank_query
  ∧ App.handleSend hello_env (setQuery blank_query streak_state)
    = (Normal, setQuery blank_query streak_state)
  ∧ AppStreak.handleSend (λ _, []) (Some blank_query) hello_env streak_state
    = (Normal, streak_state).
Proof.
  assert (blank blank_query) as Hq.
  { repeat (apply List.Forall_cons; [reflexivity|]). apply List.Forall_nil. }
  split; [exact Hq|]. split.
  - exact (proj1 (blank_question_noop _ Hq) hello_env (setQuery blank_query streak_state) eq_refl).
  - exact (proj2 (blank_question_noop _ Hq) (λ _, []) (Some blank_query) hello_env
             streak_state eq_refl).
Defined.

(** ** Truncation *)

Lemma sliceZ_prefix s k : 0 ≤ k ≤ Z.of_nat (length s) → sliceZ s 0 k = take (Z.to_nat k) s.
Proof.
  intros Hk. unfold sliceZ. cbv zeta.
  rewrite (proj2 (Z.ltb_ge 0 0)) by lia. rewrite (proj2 (Z.ltb_ge k 0)) by lia.
  rewrite !Z.min_l by lia. rewrite Z.sub_0_r. done.
Qed.

Lemma truncate_short s n :
  Z.of_nat (length s) ≤ n → truncate s (Some n) = s.
Proof. intros H. unfold truncate. simpl. by rewrite (proj2 (Z.ltb_ge n _)). Qed.

Lemma truncate_long s n :
  1 ≤ n < Z.of_nat (length s) →
  truncate s (Some n) = take (Z.to_nat (n - 1)) s ++ [ELLIPSIS].
Proof.
  intros H. unfold truncate. simpl. rewrite (proj2 (Z.ltb_lt n _)) by lia.
  by rewrite sliceZ_prefix by lia.
Qed.

(** X1: for a limit of at least one code unit, the truncated text is never
    longer than the limit and never longer than the text, and it starts
    with the same [n - 1] code units as the text. *)
Theorem truncate_length (s : jsstring) (n : Z) :
  1 ≤ n →
  Z.of_nat (length (truncate s (Some n))) = Z.min (Z.of_nat (length s)) n
  ∧ take (Z.to_nat (n - 1)) (truncate s (Some n)) = take (Z.to_nat (n - 1)) s.
Proof.
  intros Hn. destruct (decide (Z.of_nat (length s) ≤ n)) as [Hs|Hs].
  - rewrite truncate_short by done. split; [lia|done].
  - rewrite truncate_long by lia. split.
    + rewrite length_app, length_take. simpl. lia.
    + rewrite take_app_le by (rewrite length_take; lia).
      rewrite take_take. f_equal. lia.
Qed.

Lemma truncate_length_witness :
  Z.of_nat (length (truncate (js "Walden, or Life in the Woods") (Some 7))) = 7
  ∧ truncate (js "Walden, or Life in the Woods") (Some 7) = js "Walden" ++ [ELLIPSIS].
Proof.
  split.
  - exact (proj1 (truncate_length (js "Walden, or Life in the Woods") 7 ltac:(lia))).
  - reflexivity.
Defined.

(** X2: a text cut to a limit and then cut to a smaller limit is the text
    cut to the smaller limit; in particular cutting twice to the same limit
    changes nothing more. *)
Theorem truncate_truncate (s : jsstring) (n m : Z) :
  1 ≤ n ≤ m →
  truncate (truncate s (Some m)) (Some n) = truncate s (Some n).
Proof.
  intros Hnm. destruct (decide (Z.of_nat (length s) ≤ m)) as [Hs|Hs].
  - by rewrite (truncate_short s m).
  - rewrite (truncate_long s m) by lia.
    assert (Z.of_nat (length (take (Z.to_nat (m - 1)) s ++ [ELLIPSIS])) = m) as Hlen.
    { rewrite length_app, length_take. simpl. lia. }
    destruct (decide (n = m)) as [->|Hne].
    + rewrite (truncate_long s m) by lia.
      rewrite truncate_short; [done|]. rewrite Hlen. lia.
    + rewrite (truncate_long _ n), (truncate_long s n) by lia.
      rewrite take_app_le by (rewrite length_take; lia).
      rewrite take_take. do 2 f_equal. lia.
Qed.

Lemma truncate_truncate_witness :
  truncate (truncate (js "Walden, or Life in the Woods") (Some 10)) (Some 7)
  = truncate (js "Walden, or Life in the Woods") (Some 7).
Proof. exact (truncate_truncate (js "Walden, or Life in the Woods") 7 10 ltac:(lia)). Defined.

(** ** The daily prompts *)

Lemma probe_spec used len pick remaining :
  (pick < len)%nat →
  (probe used len pick remaining < len)%nat
  ∧ (probe used len pick remaining ∉ used
     ∨ ∀ k, (k < remaining)%nat → ((pick + k) mod len)%nat ∈ used).
Proof.
  revert pick; induction remaining as [|r IH]; intros pick Hpick; simpl.
  - split; [done|]. right. intros k Hk. lia.
  - destruct (decide (pick ∈ used)) as [Hin|Hout]; [|by split; [|left]].
    assert (((pick + 1) mod len) < len)%nat as Hnext by (apply Nat.mod_upper_bound; lia).
    destruct (IH _ Hnext) as [Hlt [Hfree|Hall]]; (split; [done|]); [by left|].
    right. intros [|k] Hk.
    + rewrite Nat.add_0_r, Nat.mod_small by done. done.
    + specialize (Hall k ltac:(lia)).
      rewrite Nat.Div0.add_mod_idemp_l in Hall.
      by replace (pick + S k)%nat with (pick + 1 + k)%nat by lia.
Qed.

(** With fewer used indices than the pool has places, the search ends on an
    index that is not used. *)
Lemma probe_fresh (used : gset nat) len pick :
  (pick < len)%nat → (size used < len)%nat →
  (probe used len pick len < len)%nat ∧ probe used len pick len ∉ used.
Proof.
  intros Hpick Hsize.
  destruct (probe_spec used len pick len Hpick) as [Hlt [Hfree|Hall]]; [done|].
  exfalso.
  assert (set_seq (C:=gset nat) 0 len ⊆ used) as Hsub.
  { intros x [_ Hx]%elem_of_set_seq. simpl in Hx.
    specialize (Hall ((x + len - pick) mod len)%nat
                     ltac:(apply Nat.mod_upper_bound; lia)).
    rewrite Nat.Div0.add_mod_idemp_r in Hall.
    replace (pick + (x + len - pick))%nat with (x + 1 * len)%nat in Hall by lia.
    rewrite Nat.Div0.mod_add, Nat.mod_small in Hall by done. done. }
  apply subseteq_size in Hsub. rewrite size_set_seq in Hsub. lia.
Qed.

Lemma pickStep_picked prompts idxs st :
  picked prompts idxs st → (length idxs < length prompts)%nat →
  ∃ pick, picked prompts (idxs ++ [pick]) (pickStep prompts st).
Proof.
  intros (Hnd & Hlt & Hused & Hpicks) Hroom.
  set (sd := ((seed st * 9301 + 49297) mod 233280)%N).
  set (idx := N.to_nat (sd mod N.of_nat (length prompts))%N).
  assert (idx < length prompts)%nat as Hidx.
  { unfold idx. pose proof (N.mod_upper_bound sd (N.of_nat (length prompts))). lia. }
  assert (size (used st) < length prompts)%nat as Hsize.
  { rewrite Hused. pose proof (size_list_to_set (C:=gset nat) idxs Hnd). lia. }
  destruct (probe_fresh (used st) (length prompts) idx Hidx Hsize) as [Hp Hfree].
  assert (∀ x, x ∈ used st ↔ x ∈ idxs) as Hmem.
  { intros x. rewrite Hused. apply elem_of_list_to_set. }
  exists (probe (used st) (length prompts) idx (length prompts)).
  unfold pickStep. fold sd idx. unfold picked. simpl.
  split; [|split; [|split]].
  - apply NoDup_app. split; [done|]. split; [|apply NoDup_singleton].
    intros i Hi ->%list_elem_of_singleton. by apply Hfree, Hmem.
  - apply Forall_app. split; [done|]. by apply Forall_singleton.
  - rewrite Hused, list_to_set_app_L. simpl.
    rewrite (right_id_L ∅ (∪)). apply (comm_L (∪)).
  - by rewrite Hpicks, fmap_app.
Qed.

Lemma iter_pickStep_picked prompts key n :
  (n ≤ length prompts)%nat →
  ∃ idxs, length idxs = n
          ∧ picked prompts idxs
              (Nat.iter n (pickStep prompts) {| seed := seedOf key; used := ∅; picks := [] |}).
Proof.
  induction n as [|n IH]; intros Hn.
  - exists []. split; [done|]. repeat split; simpl; [apply NoDup_nil_2|done..].
  - destruct (IH ltac:(lia)) as (idxs & Hlen & Hinv).
    destruct (pickStep_picked _ _ _ Hinv ltac:(lia)) as [pick Hpick].
    exists (idxs ++ [pick]). split; [|done]. rewrite length_app. simpl. lia.
Qed.

Lemma pickPrompts_distinct prompts key :
  NoDup prompts →
  ∃ ps, pickPrompts prompts key = Some <$> ps
        ∧ length ps = (3 `min` length prompts)%nat
        ∧ NoDup ps
        ∧ ps ⊆ prompts.
Proof.
  intros Hnd. unfold pickPrompts.
  destruct (iter_pickStep_picked prompts key (3 `min` length prompts) ltac:(lia))
    as (idxs & Hlen & Hndi & Hlt & _ & ->).
  assert (∃ ps, (λ i, prompts !! i) <$> idxs = Some <$> ps
                ∧ Forall2 (λ i p, prompts !! i = Some p) idxs ps) as (ps & Heq & Hps).
  { clear Hlen Hndi. induction Hlt as [|i idxs Hi _ (ps & Heq & Hps)].
    - by exists [].
    - destruct (lookup_lt_is_Some_2 prompts i Hi) as [p Hp].
      exists (p :: ps). split; [|by constructor]. by rewrite !fmap_cons, Heq, Hp. }
  exists ps. split; [done|]. split; [by rewrite <- (Forall2_length _ _ _ Hps)|]. split.
  - clear Heq Hlen Hlt. induction Hps as [|i p idxs ps Hp Hps IH]; [apply NoDup_nil_2|].
    apply NoDup_cons in Hndi as [Hi Hndi]. apply NoDup_cons. split; [|by apply IH].
    intros Hin. apply Hi.
    apply list_elem_of_lookup in Hin as [k Hk].
    destruct (Forall2_lookup_r _ _ _ _ _ Hps Hk) as (j & Hj & Hpj).
    rewrite (NoDup_lookup prompts i j p Hnd Hp Hpj).
    by eapply list_elem_of_lookup_2.
  - intros p Hin. apply list_elem_of_lookup in Hin as [k Hk].
    destruct (Forall2_lookup_r _ _ _ _ _ Hps Hk) as (j & Hj & Hpj).
    by eapply list_elem_of_lookup_2.
Qed.

(** X3: whatever the date, the prompts of the day are three different
    prompts of the pool. *)
Theorem dailyPrompts_distinct (iso : jsstring) :
  ∃ ps, dailyPrompts iso = Some <$> ps
        ∧ length ps = 3%nat
        ∧ NoDup ps
        ∧ ps ⊆ pool.
Proof.
  assert (NoDup pool) as Hnd.
  { apply NoDup_ListNoDup, (List.NoDup_count_occ (list_eq_dec (A:=N))).
    intros p. unfold pool. cbn [count_occ].
    repeat (destruct (list_eq_dec _ p) as [<-|?]; [by vm_compute|]). lia. }
  destruct (pickPrompts_distinct pool (slice iso 0 10) Hnd) as (ps & Heq & Hlen & Hps).
  exists ps. by split.
Qed.

(** The numbers of the generator stay exact in doubles: the seed of a date
    key is a sum of at most ten 16-bit code units. *)
Lemma charCodes_sublist key : charCodes key `sublist_of` key.
Proof.
  induction key as [key IH] using jsstring_length_ind.
  destruct key as [|c [|d rest]]; simpl; [done|done|].
  apply sublist_skip. destruct (isHighSurrogate c && isLowSurrogate d).
  - apply sublist_cons, IH. simpl. lia.
  - apply (IH (d :: rest)). simpl. lia.
Qed.

Lemma charCodes_bound key :
  Forall (λ c, c < 65536)%N key →
  (foldl N.add 0 (charCodes key) ≤ 65535 * N.of_nat (length key))%N.
Proof.
  assert (∀ l acc, Forall (λ c, c < 65536)%N l →
            (foldl N.add acc l ≤ acc + 65535 * N.of_nat (length l))%N) as Hsum.
  { induction l as [|c l IH]; intros acc Hl; simpl; [lia|].
    apply Forall_cons in Hl as [Hc Hl]. specialize (IH (acc + c)%N Hl). lia. }
  intros Hk. pose proof (charCodes_sublist key) as Hsub.
  pose proof (sublist_length _ _ Hsub) as Hlen.
  assert (Forall (λ c, c < 65536)%N (charCodes key)) as Hc.
  { apply Forall_forall. intros x Hx. rewrite Forall_forall in Hk.
    by eapply Hk, elem_of_sublist. }
  specialize (Hsum _ 0%N Hc). lia.
Qed.

Lemma seed_exact iso :
  Forall (λ c, c < 65536)%N iso →
  Z.of_N (seedOf (slice iso 0 10) * 9301 + 49297) ≤ MAX_SAFE_INTEGER.
Proof.
  intros Hiso. unfold seedOf.
  assert (Forall (λ c, c < 65536)%N (slice iso 0 10)) as Hk.
  { unfold slice. rewrite drop_0. by apply Forall_take. }
  pose proof (charCodes_bound _ Hk) as Hb.
  assert (length (slice iso 0 10) ≤ 10)%nat as Hlen.
  { unfold slice. rewrite drop_0, length_take. lia. }
  unfold MAX_SAFE_INTEGER. lia.
Qed.

Example dailyPrompts_of_a_day :
  dailyPrompts (js "2025-03-02T10:15:00.000Z") =
    [Some (js "Give me today" ++ [8217%N] ++ js "s 2-minute habit");
     Some (js "Turn this into a daily plan");
     Some (js "How do I apply this in 10 minutes?")].
Proof. vm_compute. reflexivity. Qed.

(** ** Occurrences *)

Lemma indexOf_Some_split s p i :
  indexOf s p = Some i → s = take i s ++ p ++ drop (i + length p) s.
Proof.
  revert i; induction s as [|c s IH]; intros i.
  - rewrite indexOf_nil. destruct (startsWith [] p) eqn:E; [|done]. intros [= <-].
    by apply startsWith_true in E.
  - rewrite indexOf_cons. destruct (startsWith (c :: s) p) eqn:E.
    + intros [= <-]. by apply startsWith_true in E.
    + destruct (indexOf s p) as [j|] eqn:Ej; simpl; [|done].
      intros [= <-]. simpl. f_equal. by apply IH.
Qed.

Lemma indexOf_is_Some s p : is_Some (indexOf s p) ↔ ∃ a b, s = a ++ p ++ b.
Proof.
  split.
  - intros [i Hi]. eexists _, _. by apply indexOf_Some_split.
  - intros (a & b & ->). induction a as [|c a IH].
    + simpl. destruct (p ++ b) as [|c s] eqn:E.
      * rewrite indexOf_nil. apply app_eq_nil in E as [-> _]. by eexists.
      * rewrite indexOf_cons, <- E, startsWith_app. by eexists.
    + rewrite <- app_comm_cons, indexOf_cons.
      destruct (startsWith _ _); [by eexists|]. destruct IH as [j ->]. by eexists.
Qed.

Lemma includes_iff s p : includes s p = true ↔ ∃ a b, s = a ++ p ++ b.
Proof. unfold includes. by rewrite bool_decide_eq_true, indexOf_is_Some. Qed.

Lemma includes_trans t s p :
  includes t s = true → includes s p = true → includes t p = true.
Proof.
  rewrite !includes_iff. intros (a & b & ->) (a' & b' & ->).
  exists (a ++ a'), (b' ++ b). by rewrite <- !(assoc_L (++)).
Qed.

(** ** The search box *)

Lemma filter_sublist {A} (f : A → bool) l : List.filter f l `sublist_of` l.
Proof.
  induction l as [|x l IH]; simpl; [done|].
  destruct (f x); [by apply sublist_skip|by apply sublist_cons].
Qed.

Lemma filter_sublist_impl {A} (f g : A → bool) l :
  (∀ x, f x = true → g x = true) → List.filter f l `sublist_of` List.filter g l.
Proof.
  intros Hfg. induction l as [|x l IH]; simpl; [done|].
  destruct (f x) eqn:Ef.
  - rewrite (Hfg x Ef). by apply sublist_skip.
  - destruct (g x); [by apply sublist_cons|done].
Qed.

Lemma matches_narrow toLowerCase theme s1 s2 b :
  includes s2 s1 = true →
  matches toLowerCase theme s2 b = true → matches toLowerCase theme s1 b = true.
Proof.
  intros Hs. unfold matches. rewrite !orb_true_iff.
  intros [[H|H]|H].
  - left; left. by eapply includes_trans.
  - left; right. by eapply includes_trans.
  - right. destruct (theme b); [|done]. by eapply includes_trans.
Qed.

(** X4: the books shown for a search are books of the catalog, in the order
    of the catalog, and each of them has the lower-cased search text in its
    lower-cased title, author or theme. *)
Theorem filtered_sublist
    (toLowerCase : jsstring → jsstring) (theme : Book.t → option jsstring)
    (search : jsstring) (books : list Book.t) :
  filtered toLowerCase theme search books `sublist_of` books
  ∧ (filtered toLowerCase theme search books = books
     ∨ Forall (λ b, matches toLowerCase theme (toLowerCase search) b = true)
         (filtered toLowerCase theme search books)).
Proof.
  unfold filtered. destruct (bool_decide (trim search = [])).
  - split; [done|by left].
  - split; [apply filter_sublist|]. right.
    apply Forall_forall. intros b Hb%list_elem_of_In. by apply filter_In in Hb as [_ Hb].
Qed.

(** X5: a search text that is empty or made of white space only shows the
    whole catalog. *)
Theorem filtered_blank
    (toLowerCase : jsstring → jsstring) (theme : Book.t → option jsstring)
    (search : jsstring) (books : list Book.t) :
  blank search → filtered toLowerCase theme search books = books.
Proof. intros H%trim_blank. unfold filtered. by rewrite H. Qed.

(** X6: a search text that contains another one (after lower-casing) shows
    no book that the shorter text does not show: typing more narrows the
    list. *)
Theorem filtered_narrows
    (toLowerCase : jsstring → jsstring) (theme : Book.t → option jsstring)
    (s1 s2 : jsstring) (books : list Book.t) :
  ¬ blank s2 →
  includes (toLowerCase s2) (toLowerCase s1) = true →
  filtered toLowerCase theme s2 books `sublist_of` filtered toLowerCase theme s1 books.
Proof.
  intros H2%trim_nonblank Hinc. unfold filtered.
  rewrite (bool_decide_eq_false_2 _ H2).
  destruct (bool_decide (trim s1 = [])).
  - apply filter_sublist.
  - apply filter_sublist_impl. intros b. by apply matches_narrow.
Qed.

(** ** Every way a send can go *)

Lemma askStream_deltas bookMsgId r m :
  askStream bookMsgId r m =
  (streamCompletion r, appendDelta bookMsgId (concat (streamDeltas r)) m).
Proof.
  unfold streamCompletion. destruct r as [res| |]; simpl;
    rewrite ?appendDelta_nil; try done.
  destruct (ok res), (body res) as [reads|]; rewrite ?appendDelta_nil; try done.
  rewrite (readLoop_log (appendDelta bookMsgId)), (readLoop_log (appendDelta [])).
  simpl. by rewrite appendDelta_foldl.
Qed.

(** The messages that [askBook] leaves after the ones it found. *)
Lemma askBook_messages env q w st :
  messages (askBook env q w st).2 =
  appendDelta (bookMsgId env) (concat (streamDeltas (fetchResult env)))
    (messages st ++ [ChatMsg.mk (bookMsgId env) book [] (bookMsgTs env)])
  ++ (if decide (streamCompletion (fetchResult env) = Thrown)
      then [ChatMsg.mk (errorMsgId env) book FALLBACK (errorMsgTs env)] else []).
Proof.
  unfold askBook. cbv zeta. simpl. rewrite askStream_deltas.
  destruct (streamCompletion (fetchResult env)); simpl; by rewrite ?app_nil_r.
Qed.

Lemma askBook_rest env q w st :
  (askBook env q w st).1 =
    match streamCompletion (fetchResult env) with
    | Pending => Pending
    | _ => Normal
    end
  ∧ asked (askBook env q w st).2 =
      asked st ++ [{| askBookId := Book.id w; askQuestion := q |}]
  ∧ query (askBook env q w st).2 = query st
  ∧ books (askBook env q w st).2 = books st
  ∧ selected (askBook env q w st).2 = selected st
  ∧ resumeSession (askBook env q w st).2 = resumeSession st.
Proof.
  unfold askBook. cbv zeta. simpl. rewrite askStream_deltas.
  by destruct (streamCompletion (fetchResult env)).
Qed.

Lemma appendDelta_fresh_app bookMsgId delta m tail :
  bookMsgId ∉ (ChatMsg.id <$> m) →
  appendDelta bookMsgId delta (m ++ tail) = m ++ appendDelta bookMsgId delta tail.
Proof.
  intros Hfresh. unfold appendDelta at 1. rewrite fmap_app. f_equal.
  apply appendDelta_absent, Forall_forall. intros msg Hin E. apply Hfresh.
  rewrite <- E. apply list_elem_of_fmap. by exists msg.
Qed.

Lemma beforeAsk_query JSON_stringify q env st : query (beforeAsk JSON_stringify q env st) = [].
Proof. unfold beforeAsk, AppStreak.saveResume. by destruct (which _). Qed.

(** X7: when the stream of a send runs to its end, the send completes and
    leaves exactly two new messages at the end of the transcript, the
    trimmed question and the book message holding all deltas of the stream and
    nothing else; no fallback message is added, the text box is emptied and
    one request, for [selected ?? books[0]] and the trimmed question, was
    sent. *)
Theorem completed_stream_turn (q : jsstring) (r : FetchResult) :
  ¬ blank q →
  streamCompletion r = Normal →
  (∀ env st w,
     query st = q → fetchResult env = r → which st = Some w →
     bookMsgId env ≠ userMsgId env →
     bookMsgId env ∉ (ChatMsg.id <$> messages st) →
     App.handleSend env st =
       (Normal,
        {| books := books st; selected := selected st; query := [];
           messages := messages st ++
             [ChatMsg.mk (userMsgId env) user (trim q) (userMsgTs env);
              ChatMsg.mk (bookMsgId env) book (concat (streamDeltas r)) (bookMsgTs env)];
           streak := streak st; resumeSession := resumeSession st;
           localStorage := localStorage st;
           asked := asked st ++ [askOf w q] |}))
  ∧ (∀ JSON_stringify overrideText env st w,
       default (query st) overrideText = q → fetchResult env = r → which st = Some w →
       bookMsgId env ≠ userMsgId env →
       bookMsgId env ∉ (ChatMsg.id <$> messages st) →
       (AppStreak.handleSend JSON_stringify overrideText env st).1 = Normal
       ∧ messages (AppStreak.handleSend JSON_stringify overrideText env st).2 =
           messages st ++
             [ChatMsg.mk (userMsgId env) user (trim q) (userMsgTs env);
              ChatMsg.mk (bookMsgId env) book (concat (streamDeltas r)) (bookMsgTs env)]
       ∧ asked (AppStreak.handleSend JSON_stringify overrideText env st).2 =
           asked st ++ [askOf w q]
       ∧ query (AppStreak.handleSend JSON_stringify overrideText env st).2 = []).
Proof.
  intros Hq%trim_nonblank Hr.
  assert (∀ env (m : list ChatMsg.t) u,
            fetchResult env = r → ChatMsg.id u ≠ bookMsgId env →
            bookMsgId env ∉ (ChatMsg.id <$> m) →
            appendDelta (bookMsgId env) (concat (streamDeltas (fetchResult env)))
              ((m ++ [u]) ++ [ChatMsg.mk (bookMsgId env) book [] (bookMsgTs env)])
            ++ (if decide (streamCompletion (fetchResult env) = Thrown)
                then [ChatMsg.mk (errorMsgId env) book FALLBACK (errorMsgTs env)] else [])
            = m ++ [u; ChatMsg.mk (bookMsgId env) book (concat (streamDeltas r)) (bookMsgTs env)])
    as Hturn.
  { intros env m u -> Hu Hfresh. rewrite Hr. simpl. rewrite app_nil_r.
    rewrite <- !(assoc_L (++)), appendDelta_fresh_app by done.
    f_equal. unfold appendDelta. simpl.
    rewrite decide_False, decide_True by done. done. }
  split.
  - intros env st w <- Hf Hw Hne Hfresh.
    rewrite handleSend_sent, Hw by done.
    set (st1 := setQuery [] _).
    destruct (askBook_rest env (trim (query st)) w st1) as (Hc & Ha & Hqy & Hb & Hs & Hrs).
    pose proof (askBook_messages env (trim (query st)) w st1) as Hm.
    destruct (askBook_keeps_storage env (trim (query st)) w st1) as [Hls Hsk].
    rewrite Hf, Hr in Hc. simpl in Hm. rewrite Hturn in Hm by (simpl; done).
    destruct (askBook env (trim (query st)) w st1) as [c [b s qy ms sk rs ls ak]].
    simpl in *. subst. done.
  - intros JSON_stringify overrideText env st w <- Hf Hw Hne Hfresh.
    rewrite handleSend_streak_sent, Hw by done.
    set (st1 := beforeAsk _ _ _ _).
    destruct (askBook_rest env (trim (default (query st) overrideText)) w st1)
      as (Hc & Ha & Hqy & _).
    pose proof (askBook_messages env (trim (default (query st) overrideText)) w st1) as Hm.
    rewrite Hf, Hr in Hc. unfold st1 in Hm, Ha, Hqy.
    rewrite beforeAsk_messages in Hm. rewrite beforeAsk_asked in Ha.
    rewrite beforeAsk_query in Hqy. rewrite Hturn in Hm by (simpl; done).
    done.
Qed.

Lemma asked_after_send env st :
  asked (App.handleSend env st).2 =
    asked st ++
    (if decide (blank (query st)) then []
     else match which st with
          | Some w => [askOf w (query st)]
          | None => []
          end).
Proof.
  destruct (decide (blank (query st))) as [Hb|Hb].
  - unfold App.handleSend. rewrite (trim_blank _ Hb). simpl. by rewrite app_nil_r.
  - rewrite handleSend_sent by by apply trim_nonblank.
    destruct (which st) as [w|]; [|simpl; by rewrite app_nil_r].
    by destruct (askBook_rest env (trim (query st)) w
                   (setQuery [] (setMessages
                      (λ m, m ++ [ChatMsg.mk (userMsgId env) user (trim (query st))
                                    (userMsgTs env)]) st))) as (_ & -> & _).
Qed.

Lemma asked_after_streak_send JSON_stringify overrideText env st :
  asked (AppStreak.handleSend JSON_stringify overrideText env st).2 =
    asked st ++
    (if decide (blank (default (query st) overrideText)) then []
     else match which st with
          | Some w => [askOf w (default (query st) overrideText)]
          | None => []
          end).
Proof.
  destruct (decide (blank (default (query st) overrideText))) as [Hb|Hb].
  - unfold AppStreak.handleSend. rewrite (trim_blank _ Hb). simpl. by rewrite app_nil_r.
  - rewrite handleSend_streak_sent by by apply trim_nonblank.
    destruct (which st) as [w|].
    + destruct (askBook_rest env (trim (default (query st) overrideText)) w
                  (beforeAsk JSON_stringify (trim (default (query st) overrideText)) env st))
        as (_ & -> & _).
      by rewrite beforeAsk_asked.
    + cbn [snd]. by rewrite beforeAsk_asked, app_nil_r.
Qed.

(** X8: a send posts one request when the question is not blank and a book
    is selected or the catalog has one, and none otherwise, however the
    transport goes afterwards. *)
Theorem requests_of_a_send
    (JSON_stringify : Session → jsstring) (overrideText : option jsstring)
    (env : Env) (st : AppState) :
  asked (App.handleSend env st).2 =
    asked st ++
    (if decide (blank (query st)) then []
     else match which st with
          | Some w => [askOf w (query st)]
          | None => []
          end)
  ∧ asked (AppStreak.handleSend JSON_stringify overrideText env st).2 =
      asked st ++
      (if decide (blank (default (query st) overrideText)) then []
       else match which st with
            | Some w => [askOf w (default (query st) overrideText)]
            | None => []
            end).
Proof. split; [apply asked_after_send|apply asked_after_streak_send]. Qed.

Lemma askBook_history env q w st0 st tail :
  messages st = messages st0 ++ tail →
  bookMsgId env ∉ (ChatMsg.id <$> messages st0) →
  messages st0 `prefix_of` messages (askBook env q w st).2.
Proof.
  intros Hm Hfresh. rewrite askBook_messages, Hm.
  rewrite <- !(assoc_L (++)), appendDelta_fresh_app by done.
  by apply prefix_app_r, prefix_app_r.
Qed.

(** X9: a send never removes, reorders or rewrites the messages that are
    already in the transcript, however the transport goes: the old list is a
    prefix of the new one (the id drawn for the book message being new). *)
Theorem send_keeps_history
    (JSON_stringify : Session → jsstring) (overrideText : option jsstring)
    (env : Env) (st : AppState) :
  bookMsgId env ∉ (ChatMsg.id <$> messages st) →
  messages st `prefix_of` messages (App.handleSend env st).2
  ∧ messages st `prefix_of`
      messages (AppStreak.handleSend JSON_stringify overrideText env st).2.
Proof.
  intros Hfresh. split.
  - destruct (decide (blank (query st))) as [Hb|Hb].
    + unfold App.handleSend. by rewrite (trim_blank _ Hb).
    + rewrite handleSend_sent by by apply trim_nonblank.
      destruct (which st) as [w|]; [|simpl; by apply prefix_app_r].
      by eapply askBook_history.
  - destruct (decide (blank (default (query st) overrideText))) as [Hb|Hb].
    + unfold AppStreak.handleSend. by rewrite (trim_blank _ Hb).
    + rewrite handleSend_streak_sent by by apply trim_nonblank.
      destruct (which st) as [w|].
      * eapply askBook_history; [apply beforeAsk_messages|done].
      * cbn [snd]. rewrite beforeAsk_messages. by apply prefix_app_r.
Qed.

(** ** The streak over several sends and over a reload *)

(** What a send that is not blank leaves of the streak in the store and on
    the screen. *)
Lemma handleSend_streak_storage JSON_stringify overrideText env st :
  ¬ blank (default (query st) overrideText) →
  todayStr env ≠ [] → yesterdayStr env ≠ [] →
  localStorage (AppStreak.handleSend JSON_stringify overrideText env st).2
    !! js "lastActiveDate" = Some (todayStr env)
  ∧ localStorage (AppStreak.handleSend JSON_stringify overrideText env st).2
      !! js "streakCount" =
      Some (String_ (streak (AppStreak.handleSend JSON_stringify overrideText env st).2))
  ∧ streak (AppStreak.handleSend JSON_stringify overrideText env st).2 =
      streakTable (todayStr env) (yesterdayStr env)
        (localStorage st !! js "lastActiveDate")
        (parseCount (localStorage st !! js "streakCount")).
Proof.
  intros Hq%trim_nonblank Ht Hy.
  set (st' := (AppStreak.handleSend JSON_stringify overrideText env st).2).
  assert (localStorage st' = localStorage (beforeAsk JSON_stringify
            (trim (default (query st) overrideText)) env st)
          ∧ streak st' = streak (beforeAsk JSON_stringify
            (trim (default (query st) overrideText)) env st)) as [Hls Hs].
  { unfold st'. rewrite handleSend_streak_sent by done.
    destruct (which st); [apply askBook_keeps_storage|done]. }
  rewrite Hls, Hs. unfold beforeAsk.
  rewrite !saveResume_localStorage, saveResume_streak by js_neq.
  rewrite updateStreak_table by done. simpl.
  rewrite lookup_insert_eq. split; [|done].
  rewrite lookup_insert_ne by js_neq. by rewrite lookup_insert_eq.
Qed.

(** X10: a second question on the same day leaves the streak where the
    first one put it, on the screen and in the store. *)
Theorem same_day_streak
    (JSON_stringify : Session → jsstring) (o1 o2 : option jsstring)
    (env1 env2 : Env) (st : AppState) :
  let st1 := (AppStreak.handleSend JSON_stringify o1 env1 st).2 in
  let st2 := (AppStreak.handleSend JSON_stringify o2 env2 st1).2 in
  ¬ blank (default (query st) o1) →
  ¬ blank (default (query st1) o2) →
  todayStr env1 ≠ [] → yesterdayStr env1 ≠ [] → yesterdayStr env2 ≠ [] →
  todayStr env2 = todayStr env1 →
  Z.abs (parseCount (localStorage st !! js "streakCount")) ≤ MAX_SAFE_INTEGER →
  streak st2 = streak st1
  ∧ localStorage st2 !! js "streakCount" = localStorage st1 !! js "streakCount"
  ∧ localStorage st2 !! js "lastActiveDate" = Some (todayStr env1).
Proof.
  intros st1 st2 Hq1 Hq2 Ht1 Hy1 Hy2 Hsame _.
  destruct (handleSend_streak_storage JSON_stringify o1 env1 st Hq1 Ht1 Hy1)
    as (Hd1 & Hc1 & _).
  destruct (handleSend_streak_storage JSON_stringify o2 env2 st1 Hq2
              ltac:(by rewrite Hsame) Hy2) as (Hd2 & Hc2 & Hs2).
  fold st1 in Hd1, Hc1. fold st2 in Hd2, Hc2, Hs2.
  assert (streak st2 = streak st1) as Heq.
  { rewrite Hs2, Hd1, Hc1, parseCount_String, Hsame. unfold streakTable.
    by rewrite decide_True. }
  split; [done|]. split; [by rewrite Hc2, Hc1, Heq|by rewrite Hd2, Hsame].
Qed.

(** X11: a question on the day after the last one adds one to the streak,
    and a question after a longer pause starts again at 1. *)
Theorem next_day_streak
    (JSON_stringify : Session → jsstring) (o1 o2 : option jsstring)
    (env1 env2 : Env) (st : AppState) :
  let st1 := (AppStreak.handleSend JSON_stringify o1 env1 st).2 in
  let st2 := (AppStreak.handleSend JSON_stringify o2 env2 st1).2 in
  ¬ blank (default (query st) o1) →
  ¬ blank (default (query st1) o2) →
  todayStr env1 ≠ [] → yesterdayStr env1 ≠ [] →
  todayStr env2 ≠ [] → yesterdayStr env2 ≠ [] →
  todayStr env2 ≠ todayStr env1 →
  Z.abs (parseCount (localStorage st !! js "streakCount")) < MAX_SAFE_INTEGER →
  streak st2 = (if decide (yesterdayStr env2 = todayStr env1) then streak st1 + 1 else 1)
  ∧ localStorage st2 !! js "streakCount" = Some (String_ (streak st2))
  ∧ localStorage st2 !! js "lastActiveDate" = Some (todayStr env2).
Proof.
  intros st1 st2 Hq1 Hq2 Ht1 Hy1 Ht2 Hy2 Hdiff _.
  destruct (handleSend_streak_storage JSON_stringify o1 env1 st Hq1 Ht1 Hy1)
    as (Hd1 & Hc1 & _).
  destruct (handleSend_streak_storage JSON_stringify o2 env2 st1 Hq2 Ht2 Hy2)
    as (Hd2 & Hc2 & Hs2).
  fold st1 in Hd1, Hc1. fold st2 in Hd2, Hc2, Hs2.
  split; [|done].
  rewrite Hs2, Hd1, Hc1, parseCount_String. unfold streakTable.
  rewrite decide_False by (intros [= E]; by apply Hdiff).
  destruct (decide (yesterdayStr env2 = todayStr env1)) as [E|E].
  - by rewrite decide_True by (by rewrite E).
  - by rewrite decide_False by (intros [= E']; by apply E).
Qed.

Lemma loadStreak_parseCount st :
  loadStreak st = setStreak (parseCount (localStorage st !! js "streakCount")) st.
Proof.
  unfold loadStreak, parseCount. by destruct (localStorage st !! js "streakCount") as [[|c s]|].
Qed.

(** X12: after a reload the streak read from the store is the one that the
    last send showed: loading it changes nothing. *)
Theorem reload_shows_streak
    (JSON_stringify : Session → jsstring) (overrideText : option jsstring)
    (env : Env) (st : AppState) :
  ¬ blank (default (query st) overrideText) →
  todayStr env ≠ [] → yesterdayStr env ≠ [] →
  Z.abs (parseCount (localStorage st !! js "streakCount")) ≤ MAX_SAFE_INTEGER →
  loadStreak (AppStreak.handleSend JSON_stringify overrideText env st).2
    = (AppStreak.handleSend JSON_stringify overrideText env st).2.
Proof.
  intros Hq Ht Hy _.
  destruct (handleSend_streak_storage JSON_stringify overrideText env st Hq Ht Hy)
    as (_ & Hc & _).
  rewrite loadStreak_parseCount, Hc, parseCount_String.
  by destruct (AppStreak.handleSend JSON_stringify overrideText env st).2.
Qed.

(** ** Resuming the last chat *)

Lemma trimStart_split s :
  ∃ w, s = w ++ trimStart s ∧ blank w
       ∧ isWhiteSpace (default 0%N (head (trimStart s))) = false.
Proof.
  induction s as [|c s (w & Hs & Hw & Hh)]; simpl.
  - exists []. split; [done|]. split; [apply List.Forall_nil|done].
  - destruct (isWhiteSpace c) eqn:E.
    + exists (c :: w). split; [by rewrite <- app_comm_cons, <- Hs|].
      split; [by apply List.Forall_cons|done].
    + exists []. split; [done|]. split; [apply List.Forall_nil|done].
Qed.

Lemma trimStart_fixed s :
  isWhiteSpace (default 0%N (head s)) = false → trimStart s = s.
Proof. destruct s as [|c s]; simpl; [done|]. by intros ->. Qed.

Lemma trimStart_head s : isWhiteSpace (default 0%N (head (trimStart s))) = false.
Proof. by destruct (trimStart_split s) as (_ & _ & _ & H). Qed.

Lemma trimStart_trimStart s : trimStart (trimStart s) = trimStart s.
Proof. apply trimStart_fixed, trimStart_head. Qed.

Lemma trimEnd_head u :
  isWhiteSpace (default 0%N (head u)) = false →
  isWhiteSpace (default 0%N (head (trimEnd u))) = false.
Proof.
  intros Hu. unfold trimEnd.
  destruct (trimStart_split (reverse u)) as (w & Hr & _ & _).
  apply (f_equal reverse) in Hr. rewrite reverse_involutive, reverse_app in Hr.
  destruct (reverse (trimStart (reverse u))) as [|c t]; [done|].
  rewrite Hr in Hu. by simpl in Hu.
Qed.

(** [trim] leaves a trimmed string as it is. *)
Lemma trim_trim s : trim (trim s) = trim s.
Proof.
  unfold trim at 1.
  rewrite (trimStart_fixed (trim s)) by apply trimEnd_head, trimStart_head.
  unfold trim, trimEnd. by rewrite reverse_involutive, trimStart_trimStart.
Qed.

Lemma find_first_id (books : list Book.t) w :
  w ∈ books → NoDup (Book.id <$> books) →
  List.find (λ x, bool_decide (Book.id x = Book.id w)) books = Some w.
Proof.
  intros Hin Hnd. induction books as [|b books IH]; [by apply elem_of_nil in Hin|].
  rewrite fmap_cons in Hnd. apply NoDup_cons in Hnd as [Hb Hnd]. simpl.
  apply elem_of_cons in Hin as [->|Hin]; [by rewrite bool_decide_eq_true_2|].
  rewrite bool_decide_eq_false_2; [by apply IH|].
  intros E. apply Hb. rewrite E. apply list_elem_of_fmap. by exists w.
Qed.

Lemma beforeAsk_resumeSession JSON_stringify q env st w :
  which st = Some w →
  resumeSession (beforeAsk JSON_stringify q env st) =
    Some {| bookId := Book.id w; question := q; bookTitle := Book.title w |}.
Proof.
  intros Hw. unfold beforeAsk, AppStreak.saveResume.
  change (which (AppStreak.updateStreak env _)) with (which st). by rewrite Hw.
Qed.

(** X13: after a send to a book of the catalog, the Resume button selects
    that book again and puts the trimmed question back into the text box,
    and sending it posts the same request once more. *)
Theorem resume_repeats_question
    (JSON_stringify : Session → jsstring) (overrideText : option jsstring)
    (env env' : Env) (st : AppState) (w : Book.t) :
  let q := default (query st) overrideText in
  let st1 := (AppStreak.handleSend JSON_stringify overrideText env st).2 in
  ¬ blank q →
  which st = Some w →
  w ∈ books st →
  NoDup (Book.id <$> books st) →
  resumeSession st1 = Some (sessionOf w q)
  ∧ selected (resumeClick st1) = Some w
  ∧ query (resumeClick st1) = trim q
  ∧ asked (AppStreak.handleSend JSON_stringify None env' (resumeClick st1)).2 =
      asked st ++ [askOf w q; askOf w q].
Proof.
  intros q st1 Hq Hw Hin Hnd.
  assert (resumeSession st1 = Some (sessionOf w q)
          ∧ books st1 = books st ∧ asked st1 = asked st ++ [askOf w q]) as (Hrs & Hb & Ha).
  { unfold st1. rewrite handleSend_streak_sent, Hw by by apply trim_nonblank.
    destruct (askBook_rest env (trim q) w (beforeAsk JSON_stringify (trim q) env st))
      as (_ & Ha & _ & Hb & _ & Hrs).
    fold q. rewrite Hrs, Hb, Ha, beforeAsk_asked.
    rewrite (beforeAsk_resumeSession _ _ _ _ w Hw).
    by rewrite (proj1 (beforeAsk_books JSON_stringify (trim q) env st)). }
  assert (resumeClick st1 = setQuery (trim q) (setSelected w st1)) as Hclick.
  { unfold resumeClick. rewrite Hrs, Hb. simpl. by rewrite (find_first_id _ _ Hin Hnd). }
  split; [done|]. rewrite Hclick. split; [done|]. split; [done|].
  rewrite asked_after_streak_send. simpl. rewrite decide_False.
  - unfold which. simpl. rewrite Ha, <- (assoc_L (++)). simpl.
    unfold askOf. by rewrite trim_trim.
  - intros Hbl%trim_blank. rewrite trim_trim in Hbl. by apply trim_nonblank in Hq.
Qed.

(** ** The journal *)

Lemma find_user_after_books (answers : list ChatMsg.t) u rest :
  Forall (λ m, ChatMsg.role m = book) answers → ChatMsg.role u = user →
  List.find (λ x, bool_decide (ChatMsg.role x = user)) (answers ++ u :: rest) = Some u.
Proof.
  intros Ha Hu. induction Ha as [|a answers Hr _ IH]; simpl.
  - by rewrite bool_decide_eq_true_2.
  - rewrite bool_decide_eq_false_2; [done|]. by rewrite Hr.
Qed.

Lemma previousQuestion_user
    (before answers : list ChatMsg.t) (u : ChatMsg.t) (k : nat) :
  ChatMsg.role u = user →
  ChatMsg.content u ≠ [] →
  Forall (λ m, ChatMsg.role m = book) answers →
  (k < length answers)%nat →
  previousQuestion (before ++ u :: answers) (length before + 1 + k) = ChatMsg.content u.
Proof.
  intros Hu Hc Ha Hk. unfold previousQuestion.
  rewrite take_app_ge by lia.
  replace (length before + 1 + k - length before)%nat with (S k) by lia.
  rewrite firstn_cons, reverse_app, reverse_cons, <- (assoc_L (++)). simpl.
  rewrite find_user_after_books; [by destruct (ChatMsg.content u)| |done].
  apply Forall_reverse, Forall_take, Ha.
Qed.

(** X14: the question saved with a book bubble is the content of the nearest
    user message before it: every answer that follows a question, the
    fallback message included, is saved with that question; and a book
    bubble with no question before it is saved with a fixed text. *)
Theorem previousQuestion_of_answer
    (before answers : list ChatMsg.t) (u : ChatMsg.t) (k : nat) :
  ChatMsg.role u = user →
  ChatMsg.content u ≠ [] →
  Forall (λ m, ChatMsg.role m = book) answers →
  (k < length answers)%nat →
  previousQuestion (before ++ u :: answers) (length before + 1 + k) = ChatMsg.content u
  ∧ previousQuestion answers k = js "(previous question)".
Proof.
  intros Hu Hc Ha Hk. split; [by apply previousQuestion_user|].
  unfold previousQuestion.
  assert (List.find (λ x, bool_decide (ChatMsg.role x = user)) (reverse (take k answers))
          = None) as ->; [|done].
  assert (Forall (λ m, ChatMsg.role m = book) (reverse (take k answers))) as Hb
    by apply Forall_reverse, Forall_take, Ha.
  induction Hb as [|m l Hm _ IH]; [done|]. simpl.
  rewrite bool_decide_eq_false_2; [done|]. by rewrite Hm.
Qed.

Section JournalFacts.
Context {Item : Type}.
Variable entryItem : JournalEntry → Item.
Variable JSON_parse : jsstring → Parsed Item.
Variable JSON_stringify : list Item → jsstring.
Hypothesis parse_stringify : ∀ items, JSON_parse (JSON_stringify items) = ArrayOf items.
Hypothesis stringify_nonempty : ∀ items, JSON_stringify items ≠ [].

Lemma readJournal_setItem items st :
  readJournal Item JSON_parse (setItem (js "journal") (JSON_stringify items) st)
  = ArrayOf items.
Proof.
  unfold readJournal. simpl. rewrite lookup_insert_eq.
  pose proof (stringify_nonempty items) as Hne.
  pose proof (parse_stringify items) as Hp.
  by destruct (JSON_stringify items).
Qed.

Lemma saveToJournal_read id ts bookId q a st :
  readJournal Item JSON_parse
    (saveToJournal Item entryItem JSON_parse JSON_stringify id ts bookId q a st) =
  match readJournal Item JSON_parse st with
  | ArrayOf items =>
      ArrayOf (items ++ [entryItem {| entryId := id; entryTs := ts; entryBookId := bookId;
                                      entryQ := q; entryA := a |}])
  | other => other
  end.
Proof.
  unfold saveToJournal.
  destruct (readJournal Item JSON_parse st) as [| |items] eqn:E; [done|done|].
  apply readJournal_setItem.
Qed.
End JournalFacts.

(** X15: saving an insight appends it after the entries that the stored
    journal holds (none when nothing or the empty text is stored) and
    touches nothing else of the store or of the state; a stored journal that
    cannot be parsed or is not an array is left as it is. *)
Theorem saveToJournal_appends
    (Item : Type) (entryItem : JournalEntry → Item)
    (JSON_parse : jsstring → Parsed Item) (JSON_stringify : list Item → jsstring)
    (id : jsstring) (ts : Z) (bookId q a : jsstring) (st : AppState) :
  (∀ items, JSON_parse (JSON_stringify items) = ArrayOf items) →
  (∀ items, JSON_stringify items ≠ []) →
  let st' := saveToJournal Item entryItem JSON_parse JSON_stringify id ts bookId q a st in
  readJournal Item JSON_parse st' =
    match readJournal Item JSON_parse st with
    | ArrayOf items =>
        ArrayOf (items ++ [entryItem {| entryId := id; entryTs := ts; entryBookId := bookId;
                                        entryQ := q; entryA := a |}])
    | other => other
    end
  ∧ delete (js "journal") (localStorage st') = delete (js "journal") (localStorage st)
  ∧ messages st' = messages st ∧ streak st' = streak st ∧ asked st' = asked st.
Proof.
  intros Hps Hne st'. split; [by apply saveToJournal_read|].
  unfold st', saveToJournal.
  destruct (readJournal Item JSON_parse st); simpl; [done|done|].
  by rewrite delete_insert_eq.
Qed.

(** ** More on the frame parser and the frame loop *)

Lemma indexOf_LF_none l : LF ∉ l → indexOf l [LF] = None.
Proof.
  intros Hl. destruct (indexOf l [LF]) as [i|] eqn:E; [|done].
  apply indexOf_Some_split in E. exfalso. apply Hl. rewrite E.
  rewrite !elem_of_app. right; left. by apply list_elem_of_singleton.
Qed.

Lemma indexOf_LF_first l rest : LF ∉ l → indexOf (l ++ LF :: rest) [LF] = Some (length l).
Proof.
  intros Hl. induction l as [|c l IH].
  - change ([] ++ LF :: rest) with (LF :: rest).
    rewrite indexOf_cons, startsWith_cons, N.eqb_refl. by destruct rest.
  - apply not_elem_of_cons in Hl as [Hc Hl].
    rewrite <- app_comm_cons, indexOf_cons, startsWith_cons.
    rewrite (proj2 (N.eqb_neq LF c)) by done.
    cbn [andb]. rewrite IH by done. done.
Qed.

(** Cutting a text at the line feeds gives back the lines it was joined
    from. *)
Lemma split_join_lines lines :
  lines ≠ [] → Forall (λ l, LF ∉ l) lines → split (join [LF] lines) [LF] = lines.
Proof.
  intros Hne Hl. induction Hl as [|l lines Hl Hls IH]; [done|]. clear Hne.
  destruct lines as [|l2 lines].
  - simpl. by rewrite split_step, indexOf_LF_none.
  - change (join [LF] (l :: l2 :: lines)) with (l ++ LF :: join [LF] (l2 :: lines)).
    rewrite split_step, indexOf_LF_first by done.
    rewrite take_app_length, drop_app_add.
    change (drop (length [LF]) (LF :: join [LF] (l2 :: lines)))
      with (join [LF] (l2 :: lines)).
    by rewrite IH.
Qed.

Lemma foldl_parseLine_fields lines st :
  foldl parseLine st lines = foldl parseLine st (List.filter isFieldLine lines).
Proof.
  revert st; induction lines as [|line lines IH]; intros st; simpl; [done|].
  unfold isFieldLine at 1.
  destruct (startsWith line (js "event:")) eqn:Ev; simpl.
  - by rewrite IH.
  - destruct (startsWith line (js "data:")) eqn:Ed; simpl; [by rewrite IH|].
    rewrite <- IH. f_equal. unfold parseLine. by rewrite Ev, Ed.
Qed.

(** X16: the lines of a frame that begin with neither "event:" nor "data:"
    (comments, ids, retry times, empty or malformed lines) change nothing:
    the frame is parsed as if they were not there. *)
Theorem other_lines_ignored (lines : list jsstring) :
  Forall (λ l, LF ∉ l) lines →
  parseFrame (join [LF] lines) = parseFrame (join [LF] (List.filter isFieldLine lines)).
Proof.
  intros Hl.
  assert (∀ ls, Forall (λ l, LF ∉ l) ls →
            parseFrame (join [LF] ls) =
            foldl parseLine {| eventType := None; dataLines := [] |}
              (List.filter isFieldLine ls)) as Hparse.
  { intros ls Hls. unfold parseFrame. destruct ls as [|l ls]; [by rewrite split_step|].
    by rewrite split_join_lines, <- foldl_parseLine_fields. }
  rewrite (Hparse lines Hl), Hparse.
  - f_equal. clear. induction lines as [|l lines IH]; [done|].
    cbn [List.filter]. destruct (isFieldLine l) eqn:E; [|done].
    cbn [List.filter]. by rewrite E, <- IH.
  - apply Forall_forall. intros l Hin%list_elem_of_In. apply filter_In in Hin as [Hin _].
    rewrite Forall_forall in Hl. by apply Hl, list_elem_of_In.
Qed.

(** X17: a stream whose text never has two line feeds in a row delivers
    nothing to the open message, however long it is: frames that end with
    carriage return and line feed pairs are never cut. *)
Theorem no_delimiter_no_delta (chunks : list jsstring) :
  indexOf (concat chunks) LFLF = None →
  forwardedDeltas (chunkReads chunks) = []
  ∧ (∀ bookMsgId m,
       readLoop (appendDelta bookMsgId) (chunkReads chunks) [] m = (Normal, m)).
Proof.
  intros Hnone.
  assert (completeFrames (concat chunks) = []) as Hf
    by by rewrite completeFrames_step, Hnone.
  split.
  - by rewrite forwardedDeltas_chunks, Hf.
  - intros bookMsgId m. rewrite readLoop_chunks. simpl. by rewrite Hf.
Qed.

Lemma indexOf_take_none s p i :
  p ≠ [] → indexOf s p = Some i → indexOf (take i s) p = None.
Proof.
  intros Hp Hi. destruct (indexOf (take i s) p) as [j|] eqn:Ej; [|done].
  pose proof (indexOf_bound _ _ _ Ej) as Hb.
  apply (indexOf_app _ (drop i s)) in Ej. rewrite take_drop, Hi in Ej.
  injection Ej as <-. rewrite length_take in Hb.
  destruct p; [done|]. simpl in Hb. lia.
Qed.

Lemma indexOf_take_first s i :
  indexOf s LFLF = Some i → indexOf (take i s ++ [LF]) LFLF = None.
Proof.
  intros Hi. destruct (indexOf (take i s ++ [LF]) LFLF) as [j|] eqn:Ej; [|done].
  pose proof (indexOf_bound _ _ _ Ej) as Hb.
  pose proof (indexOf_bound _ _ _ Hi) as Hb'.
  apply (indexOf_app _ (LF :: drop (i + 2) s)) in Ej.
  pose proof (indexOf_Some_split _ _ _ Hi) as Hs.
  change (take i s ++ LFLF ++ drop (i + length LFLF) s)
    with (take i s ++ [LF] ++ LF :: drop (i + 2) s) in Hs.
  rewrite (assoc_L (++)) in Hs. rewrite <- Hs, Hi in Ej.
  injection Ej as <-. rewrite length_app, length_take in Hb. simpl in Hb, Hb'. lia.
Qed.

Lemma frames_conserve_text text :
  text = concat ((λ fr, fr ++ LFLF) <$> completeFrames text) ++ partialFrame text
  ∧ Forall (λ fr, indexOf fr LFLF = None ∧ indexOf (fr ++ [LF]) LFLF = None)
      (completeFrames text).
Proof.
  induction text as [text IH] using jsstring_length_ind.
  rewrite completeFrames_step, partialFrame_step.
  destruct (indexOf text LFLF) as [i|] eqn:E; [|by split].
  pose proof (indexOf_bound _ _ _ E) as Hb. simpl in Hb.
  destruct (IH (drop (i + 2) text)) as [Htext Hframes];
    [rewrite length_drop; lia|].
  split.
  - rewrite fmap_cons. simpl. rewrite <- !(assoc_L (++)), <- Htext.
    exact (indexOf_Some_split _ _ _ E).
  - apply List.Forall_cons; [|done].
    split; [by apply indexOf_take_none|by apply indexOf_take_first].
Qed.

(** X18: the inner loop loses no text.  It runs its body on the frames of
    the buffer, one after the other, and on nothing else; these frames, each
    followed by its delimiter, and then what the loop leaves in the buffer
    are the buffer it started from; every frame ends where the first
    delimiter begins, so that no frame and no left-over holds a delimiter
    and the buffer never keeps a complete frame. *)
Theorem drainFrames_conserves_text
    {S : Type} (forward : jsstring → S → S) (buffer : jsstring) (s : S) :
  (drainFrames forward buffer s).2
    = foldl (λ s fr, onFrame forward fr s) s (completeFrames buffer)
  ∧ buffer = concat ((λ fr, fr ++ LFLF) <$> completeFrames buffer)
               ++ (drainFrames forward buffer s).1
  ∧ indexOf (drainFrames forward buffer s).1 LFLF = None
  ∧ Forall (λ fr, indexOf fr LFLF = None ∧ indexOf (fr ++ [LF]) LFLF = None)
      (completeFrames buffer).
Proof.
  rewrite drainFrames_frames. simpl.
  destruct (frames_conserve_text buffer) as [Ht Hf].
  split; [done|]. split; [done|]. split; [apply partialFrame_drained|done].
Qed.

Lemma readLoop_parametric reads buffer :
  ∃ c ds, ∀ S (f : jsstring → S → S) (s : S),
    readLoop f reads buffer s = (c, foldl (λ s d, f d s) s ds).
Proof.
  revert buffer; induction reads as [|[value done|] reads IH]; intros buffer.
  - by exists Pending, [].
  - destruct (IH (partialFrame (buffer ++ default [] value))) as (c & ds & H).
    destruct done.
    + exists Normal, (completeFrames (buffer ++ default [] value) ≫= frameDeltas).
      intros S f s. simpl. by rewrite drainFrames_frames, foldl_onFrame.
    + exists c, ((completeFrames (buffer ++ default [] value) ≫= frameDeltas) ++ ds).
      intros S f s. simpl.
      by rewrite drainFrames_frames, foldl_onFrame, H, foldl_app.
  - by exists Thrown, [].
Qed.

Lemma readLoop_app_more reads1 reads2 buffer :
  ∃ ds, ∀ S (f : jsstring → S → S) (s : S),
    (readLoop f (reads1 ++ reads2) buffer s).2 =
    foldl (λ s d, f d s) (readLoop f reads1 buffer s).2 ds.
Proof.
  revert buffer; induction reads1 as [|[value done|] reads1 IH]; intros buffer.
  - destruct (readLoop_parametric reads2 buffer) as (c & ds & H).
    exists ds. intros S f s. simpl. by rewrite H.
  - destruct done.
    + exists []. intros S f s. simpl. by destruct (drainFrames _ _ _).
    + destruct (IH (partialFrame (buffer ++ default [] value))) as [ds H].
      exists ds. intros S f s. simpl. rewrite !drainFrames_frames. apply H.
  - by exists [].
Qed.

(** X19: the answer only grows.  The deltas delivered by the first reads of
    a stream are a prefix of those delivered when more reads follow, and the
    content of every message after more reads starts with its content
    before them. *)
Theorem more_reads_only_append
    (reads1 reads2 : list ReadResult) (bookMsgId : jsstring) (m : list ChatMsg.t) :
  forwardedDeltas reads1 `prefix_of` forwardedDeltas (reads1 ++ reads2)
  ∧ Forall2 (λ old new, ChatMsg.id new = ChatMsg.id old
                        ∧ ChatMsg.content old `prefix_of` ChatMsg.content new)
      (readLoop (appendDelta bookMsgId) reads1 [] m).2
      (readLoop (appendDelta bookMsgId) (reads1 ++ reads2) [] m).2.
Proof.
  destruct (readLoop_app_more reads1 reads2 []) as [ds H]. split.
  - unfold forwardedDeltas. rewrite H, foldl_logDelta. by apply prefix_app_r.
  - rewrite H, appendDelta_foldl.
    eapply Forall2_impl; [apply appendDelta_deltaApplied|].
    intros old new (Hid & _ & _ & Hc & _). split; [done|]. rewrite Hc.
    destruct (decide _); [by apply prefix_app_r|done].
Qed.

(** ** Saving the answer of a completed send *)

Lemma updateStreak_other_keys env st key :
  key ≠ js "streakCount" → key ≠ js "lastActiveDate" →
  localStorage (AppStreak.updateStreak env st) !! key = localStorage st !! key.
Proof.
  intros H1 H2. unfold AppStreak.updateStreak. simpl.
  by rewrite !lookup_insert_ne.
Qed.

Lemma handleSend_keeps_journal JSON_stringify overrideText env st :
  localStorage (AppStreak.handleSend JSON_stringify overrideText env st).2 !! js "journal"
  = localStorage st !! js "journal".
Proof.
  destruct (decide (trim (default (query st) overrideText) = [])) as [E|E].
  - unfold AppStreak.handleSend. cbv zeta. by rewrite bool_decide_eq_true_2.
  - rewrite handleSend_streak_sent by done.
    assert (localStorage (beforeAsk JSON_stringify
              (trim (default (query st) overrideText)) env st) !! js "journal"
            = localStorage st !! js "journal") as Hb.
    { unfold beforeAsk. rewrite saveResume_localStorage by js_neq.
      by rewrite updateStreak_other_keys by js_neq. }
    destruct (which st); [|done].
    by rewrite (proj1 (askBook_keeps_storage _ _ _ _)).
Qed.

Lemma handleSend_keeps_which JSON_stringify overrideText env st :
  which (AppStreak.handleSend JSON_stringify overrideText env st).2 = which st.
Proof.
  destruct (decide (trim (default (query st) overrideText) = [])) as [E|E].
  - unfold AppStreak.handleSend. cbv zeta. by rewrite bool_decide_eq_true_2.
  - rewrite handleSend_streak_sent by done.
    assert (∀ a b : AppState, books a = books b → selected a = selected b →
              which a = which b) as Hwhich
      by (intros a b Hb Hs; unfold which; by rewrite Hb, Hs).
    destruct (beforeAsk_books JSON_stringify
                (trim (default (query st) overrideText)) env st) as [Hb Hs].
    destruct (which st) as [w|] eqn:Hw; rewrite <- Hw; apply Hwhich; simpl; try done.
    + destruct (askBook_rest env (trim (default (query st) overrideText)) w
                  (beforeAsk JSON_stringify (trim (default (query st) overrideText)) env st))
        as (_ & _ & _ & Hb' & _ & _). by rewrite Hb'.
    + destruct (askBook_rest env (trim (default (query st) overrideText)) w
                  (beforeAsk JSON_stringify (trim (default (query st) overrideText)) env st))
        as (_ & _ & _ & _ & Hs' & _). by rewrite Hs'.
Qed.

Lemma completed_send_messages JSON_stringify overrideText env st w :
  trim (default (query st) overrideText) ≠ [] →
  which st = Some w →
  streamCompletion (fetchResult env) = Normal →
  bookMsgId env ≠ userMsgId env →
  bookMsgId env ∉ (ChatMsg.id <$> messages st) →
  messages (AppStreak.handleSend JSON_stringify overrideText env st).2 =
    messages st ++
      [ChatMsg.mk (userMsgId env) user (trim (default (query st) overrideText)) (userMsgTs env);
       ChatMsg.mk (bookMsgId env) book (concat (streamDeltas (fetchResult env)))
         (bookMsgTs env)].
Proof.
  intros Hq Hw Hr Hne Hfresh.
  rewrite handleSend_streak_sent, Hw, askBook_messages, beforeAsk_messages, Hr by done.
  simpl. rewrite app_nil_r, <- !(assoc_L (++)), appendDelta_fresh_app by done.
  f_equal. unfold appendDelta. simpl.
  rewrite decide_False, decide_True by done. done.
Qed.

(** X20: the Save button under the answer of a completed send stores that
    answer, all deltas of the stream, with the trimmed question of the send
    and the id of the book that was asked, after the entries that the
    journal already holds. *)
Theorem save_stores_the_turn
    (Item : Type) (entryItem : JournalEntry → Item)
    (JSON_parse : jsstring → Parsed Item) (JSON_stringify : list Item → jsstring)
    (stringifySession : Session → jsstring) (overrideText : option jsstring)
    (env : Env) (st : AppState) (w : Book.t) (id : jsstring) (ts : Z) :
  (∀ items, JSON_parse (JSON_stringify items) = ArrayOf items) →
  (∀ items, JSON_stringify items ≠ []) →
  let q := default (query st) overrideText in
  let st1 := (AppStreak.handleSend stringifySession overrideText env st).2 in
  ¬ blank q →
  which st = Some w →
  streamCompletion (fetchResult env) = Normal →
  bookMsgId env ≠ userMsgId env →
  bookMsgId env ∉ (ChatMsg.id <$> messages st) →
  readJournal Item JSON_parse
    (saveClick Item entryItem JSON_parse JSON_stringify id ts
       (length (messages st) + 1) st1) =
    match readJournal Item JSON_parse st with
    | ArrayOf items =>
        ArrayOf (items ++ [entryItem {| entryId := id; entryTs := ts;
                                        entryBookId := Book.id w; entryQ := trim q;
                                        entryA := concat (streamDeltas (fetchResult env)) |}])
    | other => other
    end.
Proof.
  intros Hps Hne q st1 Hq%trim_nonblank Hw Hr Hids Hfresh.
  pose proof (completed_send_messages stringifySession overrideText env st w
                Hq Hw Hr Hids Hfresh) as Hm.
  pose proof (handleSend_keeps_which stringifySession overrideText env st) as Hw1.
  pose proof (handleSend_keeps_journal stringifySession overrideText env st) as Hj.
  fold st1 in Hm, Hw1, Hj. fold q in Hm.
  assert (readJournal Item JSON_parse st1 = readJournal Item JSON_parse st) as Hread
    by (unfold readJournal; by rewrite Hj).
  unfold saveClick. rewrite Hm, Hw1, Hw.
  rewrite lookup_app_r by lia.
  replace (length (messages st) + 1 - length (messages st))%nat with 1%nat by lia.
  simpl lookup. cbv beta iota. simpl ChatMsg.role. cbv iota. simpl ChatMsg.content.
  rewrite (saveToJournal_read entryItem JSON_parse JSON_stringify Hps Hne), Hread.
  replace (previousQuestion _ _) with (trim q); [done|].
  symmetry. replace (length (messages st) + 1)%nat with (length (messages st) + 1 + 0)%nat by lia.
  apply (previousQuestion_user (messages st)
           [ChatMsg.mk (bookMsgId env) book (concat (streamDeltas (fetchResult env)))
              (bookMsgTs env)]
           (ChatMsg.mk (userMsgId env) user (trim q) (userMsgTs env)) 0); simpl;
    [done|done|by apply List.Forall_cons|lia].
Qed.

(** ** The properties at concrete inputs *)

Lemma ofBits_bitsOf p : ofBits (bitsOf p) = Some p.
Proof. induction p as [p IH|p IH|]; simpl; by rewrite ?IH. Qed.

Lemma unpack_pack items : unpackJournal (packJournal items) = ArrayOf items.
Proof.
  unfold unpackJournal, packJournal. rewrite ofBits_bitsOf. simpl.
  by rewrite decode_encode.
Qed.

Lemma pack_nonempty items : packJournal items ≠ [].
Proof. done. Qed.

Lemma filtered_blank_witness :
  filtered lowerASCII no_theme blank_query library = library.
Proof.
  assert (blank blank_query) as Hq.
  { repeat (apply List.Forall_cons; [reflexivity|]). apply List.Forall_nil. }
  exact (filtered_blank lowerASCII no_theme blank_query library Hq).
Defined.

Lemma filtered_narrows_witness :
  filtered lowerASCII no_theme (js "Wal") library
    `sublist_of` filtered lowerASCII no_theme (js "al") library.
Proof.
  assert (¬ blank (js "Wal")) as Hq by not_blank.
  assert (includes (lowerASCII (js "Wal")) (lowerASCII (js "al")) = true) as Hin
    by (by vm_compute).
  exact (filtered_narrows lowerASCII no_theme (js "al") (js "Wal") library Hq Hin).
Defined.

Lemma completed_stream_turn_witness :
  App.handleSend hello_env asking_state =
    (Normal,
     {| books := books asking_state; selected := None; query := [];
        messages :=
          [ChatMsg.mk (js "u-1") user (trim (js "What is chapter 1 about?")) 1000;
           ChatMsg.mk (js "b-1") book
             (concat (streamDeltas (fetchResult hello_env))) 1001];
        streak := 0; resumeSession := None; localStorage := ∅;
        asked := [askOf (Book.mk (js "b1") (js "Walden") (js "Thoreau"))
                    (js "What is chapter 1 about?")] |}).
Proof.
  assert (¬ blank (js "What is chapter 1 about?")) as Hq by not_blank.
  assert (streamCompletion (fetchResult hello_env) = Normal) as Hr.
  { unfold streamCompletion, hello_env, askStream. cbn [fetchResult ok body andb].
    by rewrite readLoop_chunks. }
  assert (bookMsgId hello_env ≠ userMsgId hello_env) as Hne by js_neq.
  assert (bookMsgId hello_env ∉ (ChatMsg.id <$> messages asking_state)) as Hfresh
    by apply not_elem_of_nil.
  exact (proj1 (completed_stream_turn _ _ Hq Hr)
           hello_env asking_state (Book.mk (js "b1") (js "Walden") (js "Thoreau"))
           eq_refl eq_refl eq_refl Hne Hfresh).
Defined.

Lemma send_keeps_history_witness :
  messages talked_state `prefix_of` messages (App.handleSend later_env talked_state).2
  ∧ messages talked_state `prefix_of`
      messages (AppStreak.handleSend (λ _, []) None later_env talked_state).2.
Proof.
  assert (bookMsgId later_env ∉ (ChatMsg.id <$> messages talked_state)) as Hfresh.
  { intros Hin. apply list_elem_of_In in Hin. vm_compute in Hin.
    by destruct Hin as [?|[?|?]]. }
  exact (send_keeps_history (λ _, []) None later_env talked_state Hfresh).
Defined.

Lemma same_day_streak_witness :
  streak (AppStreak.handleSend (λ _, []) (Some follow_up) later_env
            (AppStreak.handleSend (λ _, []) None hello_env streak_state).2).2
  = streak (AppStreak.handleSend (λ _, []) None hello_env streak_state).2.
Proof.
  assert (¬ blank (js "What is chapter 1 about?")) as Hq1 by not_blank.
  assert (¬ blank follow_up) as Hq2 by not_blank.
  assert (todayStr hello_env ≠ []) as Ht by js_neq.
  assert (yesterdayStr hello_env ≠ []) as Hy by js_neq.
  assert (yesterdayStr later_env ≠ []) as Hy2 by js_neq.
  assert (Z.abs (parseCount (localStorage streak_state !! js "streakCount"))
          ≤ MAX_SAFE_INTEGER) as Hsafe by (by vm_compute).
  exact (proj1 (same_day_streak (λ _, []) None (Some follow_up) hello_env later_env
                  streak_state Hq1 Hq2 Ht Hy Hy2 eq_refl Hsafe)).
Defined.

Lemma next_day_streak_witness :
  streak (AppStreak.handleSend (λ _, []) (Some follow_up) next_day_env
            (AppStreak.handleSend (λ _, []) None hello_env streak_state).2).2
  = (if decide (yesterdayStr next_day_env = todayStr hello_env)
     then streak (AppStreak.handleSend (λ _, []) None hello_env streak_state).2 + 1
     else 1).
Proof.
  assert (¬ blank (js "What is chapter 1 about?")) as Hq1 by not_blank.
  assert (¬ blank follow_up) as Hq2 by not_blank.
  assert (todayStr hello_env ≠ []) as Ht by js_neq.
  assert (yesterdayStr hello_env ≠ []) as Hy by js_neq.
  assert (todayStr next_day_env ≠ []) as Ht2 by js_neq.
  assert (yesterdayStr next_day_env ≠ []) as Hy2 by js_neq.
  assert (todayStr next_day_env ≠ todayStr hello_env) as Hday by js_neq.
  assert (Z.abs (parseCount (localStorage streak_state !! js "streakCount"))
          < MAX_SAFE_INTEGER) as Hsafe by (by vm_compute).
  exact (proj1 (next_day_streak (λ _, []) None (Some follow_up) hello_env next_day_env
                  streak_state Hq1 Hq2 Ht Hy Ht2 Hy2 Hday Hsafe)).
Defined.

Lemma reload_shows_streak_witness :
  loadStreak (AppStreak.handleSend (λ _, []) None hello_env streak_state).2
  = (AppStreak.handleSend (λ _, []) None hello_env streak_state).2.
Proof.
  assert (¬ blank (js "What is chapter 1 about?")) as Hq by not_blank.
  assert (todayStr hello_env ≠ []) as Ht by js_neq.
  assert (yesterdayStr hello_env ≠ []) as Hy by js_neq.
  assert (Z.abs (parseCount (localStorage streak_state !! js "streakCount"))
          ≤ MAX_SAFE_INTEGER) as Hsafe by (by vm_compute).
  exact (reload_shows_streak (λ _, []) None hello_env streak_state Hq Ht Hy Hsafe).
Defined.

Lemma resume_repeats_question_witness :
  query (resumeClick (AppStreak.handleSend (λ _, []) None later_env talked_state).2)
    = trim follow_up
  ∧ asked (AppStreak.handleSend (λ _, []) None next_day_env
             (resumeClick (AppStreak.handleSend (λ _, []) None later_env talked_state).2)).2
    = [askOf (Book.mk (js "b1") (js "Walden") (js "Thoreau")) follow_up;
       askOf (Book.mk (js "b1") (js "Walden") (js "Thoreau")) follow_up].
Proof.
  assert (¬ blank follow_up) as Hq by not_blank.
  assert (Book.mk (js "b1") (js "Walden") (js "Thoreau") ∈ books talked_state) as Hin
    by apply list_elem_of_here.
  assert (NoDup (Book.id <$> books talked_state)) as Hnd.
  { apply (bool_decide_unpack _). by vm_compute. }
  pose proof (resume_repeats_question (λ _, []) None later_env next_day_env talked_state
                (Book.mk (js "b1") (js "Walden") (js "Thoreau")) Hq eq_refl Hin Hnd)
    as (_ & _ & Hquery & Hasked).
  split; [exact Hquery|exact Hasked].
Defined.

Lemma previousQuestion_of_answer_witness :
  previousQuestion
    ([] ++ ChatMsg.mk (js "u-1") user (js "Hi") 1
        :: [ChatMsg.mk (js "b-1") book (js "Hel") 2;
            ChatMsg.mk (js "e-1") book FALLBACK 3]) (0 + 1 + 1)
  = js "Hi".
Proof.
  assert (js "Hi" ≠ []) as Hc by js_neq.
  assert (Forall (λ m, ChatMsg.role m = book)
            [ChatMsg.mk (js "b-1") book (js "Hel") 2;
             ChatMsg.mk (js "e-1") book FALLBACK 3]) as Hb
    by (repeat (apply List.Forall_cons; [reflexivity|]); apply List.Forall_nil).
  exact (proj1 (previousQuestion_of_answer []
                  [ChatMsg.mk (js "b-1") book (js "Hel") 2;
                   ChatMsg.mk (js "e-1") book FALLBACK 3]
                  (ChatMsg.mk (js "u-1") user (js "Hi") 1) 1%nat
                  eq_refl Hc Hb (le_n 2))).
Defined.

Lemma saveToJournal_appends_witness :
  readJournal PackedEntry unpackJournal
    (saveToJournal PackedEntry packEntry unpackJournal packJournal
       (js "j-1") 3000 (js "b1") (js "Hi") (js "HelloWorld") talked_state)
  = ArrayOf [packEntry {| entryId := js "j-1"; entryTs := 3000; entryBookId := js "b1";
                          entryQ := js "Hi"; entryA := js "HelloWorld" |}].
Proof.
  exact (proj1 (saveToJournal_appends PackedEntry packEntry unpackJournal packJournal
                  (js "j-1") 3000 (js "b1") (js "Hi") (js "HelloWorld") talked_state
                  unpack_pack pack_nonempty)).
Defined.

Lemma other_lines_ignored_witness :
  parseFrame (join [LF] commented_frame)
  = parseFrame (join [LF] (List.filter isFieldLine commented_frame)).
Proof.
  assert (Forall (λ l, LF ∉ l) commented_frame) as Hl.
  { repeat (apply List.Forall_cons;
              [apply (bool_decide_unpack _); by vm_compute|]).
    apply List.Forall_nil. }
  exact (other_lines_ignored commented_frame Hl).
Defined.

Lemma no_delimiter_no_delta_witness :
  forwardedDeltas (chunkReads crlf_chunks) = [].
Proof.
  assert (indexOf (concat crlf_chunks) LFLF = None) as Hnone by (by vm_compute).
  exact (proj1 (no_delimiter_no_delta crlf_chunks Hnone)).
Defined.

Lemma save_stores_the_turn_witness :
  readJournal PackedEntry unpackJournal
    (saveClick PackedEntry packEntry unpackJournal packJournal (js "j-1") 3000
       (length (messages asking_state) + 1)
       (AppStreak.handleSend (λ _, []) None hello_env asking_state).2)
  = ArrayOf [packEntry {| entryId := js "j-1"; entryTs := 3000; entryBookId := js "b1";
                          entryQ := trim (js "What is chapter 1 about?");
                          entryA := concat (streamDeltas (fetchResult hello_env)) |}].
Proof.
  assert (¬ blank (js "What is chapter 1 about?")) as Hq by not_blank.
  assert (streamCompletion (fetchResult hello_env) = Normal) as Hr.
  { unfold streamCompletion, hello_env, askStream. cbn [fetchResult ok body andb].
    by rewrite readLoop_chunks. }
  assert (bookMsgId hello_env ≠ userMsgId hello_env) as Hne by js_neq.
  assert (bookMsgId hello_env ∉ (ChatMsg.id <$> messages asking_state)) as Hfresh
    by apply not_elem_of_nil.
  exact (save_stores_the_turn PackedEntry packEntry unpackJournal packJournal
           (λ _, []) None hello_env asking_state
           (Book.mk (js "b1") (js "Walden") (js "Thoreau")) (js "j-1") 3000
           unpack_pack pack_nonempty Hq eq_refl Hr Hne Hfresh).
Defined.
